(** * new.c : a pointer-based binary search tree with AVL-style rotations

    The C program keeps its nodes in malloc'ed blocks linked by [left] and
    [right] pointers and mutates them in place.  The embedding below keeps
    that shape: a heap of node blocks addressed by block number, pointers
    that may be NULL, and every C function as a computation that reads and
    writes the heap and that can go wrong (NULL or dangling dereference,
    signed overflow).  An inductive tree is used only as a specification
    device, related to the heap by [tree_at]. *)

From Stdlib Require Import ZArith Lia Sorted Permutation.
From stdpp Require Import base numbers list sorting sets.

Open Scope Z_scope.

(** ** Memory *)

(** A block number.  Blocks are handed out in sequence and never freed
    (the program has no [free]). *)
Definition addr := nat.

(** A [struct node *]: [None] is NULL. *)
Definition ptr := option addr.

(** [struct node]. *)
Record node := mknode {
  data : Z;
  left : ptr;
  right : ptr;
  height : Z
}.

(** The heap: block [a] is the [a]-th element. *)
Abbreviation heap := (list node).

(** Range of the C type [int] (32 bits). *)
Definition int_min : Z := - 2 ^ 31.
Definition int_max : Z := 2 ^ 31 - 1.

(** ** Computations on the heap *)

Inductive outcome (A : Type) : Type :=
| Ret (v : A) (m : heap)   (* returned [v], leaving heap [m] *)
| Undefined                (* undefined behaviour *)
| OutOfFuel.               (* recursion deeper than the fuel given *)
Arguments Ret {A} v m.
Arguments Undefined {A}.
Arguments OutOfFuel {A}.

Definition M (A : Type) : Type := heap -> outcome A.

Definition ret {A} (v : A) : M A := fun m => Ret v m.

Definition bind {A B} (c : M A) (k : A -> M B) : M B :=
  fun m =>
    match c m with
    | Ret v m' => k v m'
    | Undefined => Undefined
    | OutOfFuel => OutOfFuel
    end.

Notation "'let!' x ':=' c 'in' k" := (bind c (fun x => k))
  (at level 10, x name, c at level 99, k at level 200).
Notation "c ';;;' k" := (bind c (fun _ => k))
  (at level 100, k at level 200, right associativity).

Definition undefined {A} : M A := fun _ => Undefined.

(** [*p] as an rvalue. *)
Definition load (p : ptr) : M node :=
  fun m =>
    match p with
    | None => Undefined
    | Some a => match m !! a with
                | Some n => Ret n m
                | None => Undefined
                end
    end.

(** [p->field = ...], the field being chosen by the update [f]. *)
Definition store (p : ptr) (f : node -> node) : M unit :=
  fun m =>
    match p with
    | None => Undefined
    | Some a => match m !! a with
                | Some n => Ret tt (<[a := f n]> m)
                | None => Undefined
                end
    end.

Definition set_data (d : Z) (n : node) : node :=
  mknode d (left n) (right n) (height n).
Definition set_left (q : ptr) (n : node) : node :=
  mknode (data n) q (right n) (height n).
Definition set_right (q : ptr) (n : node) : node :=
  mknode (data n) (left n) q (height n).
Definition set_height (h : Z) (n : node) : node :=
  mknode (data n) (left n) (right n) h.

(** The result of an [int] operation: overflow is undefined behaviour. *)
Definition in_int (z : Z) : bool := (int_min <=? z) && (z <=? int_max).

Definition int_result (z : Z) : M Z :=
  if in_int z then ret z else undefined.

(** ** The program *)

Section Program.

(** What a block holds when [malloc] hands it out: [malloc] does not
    initialise memory, so a new block at address [a] holds whatever was
    there, [uninit a]. *)
Variable uninit : addr -> node.

(** [malloc(sizeof(struct node))], in a memory that is never exhausted. *)
Definition malloc : M ptr :=
  fun m => Ret (Some (length m)) (m ++ [uninit (length m)]).

(** [int data[5] = {1, 2, 3, 4, 5};] *)
Definition data_array : list Z := [1; 2; 3; 4; 5].

Definition createnode (d : Z) : M ptr :=
  let! newnode := malloc in
  store newnode (set_data d) ;;;
  store newnode (set_left None) ;;;
  store newnode (set_right None) ;;;
  ret newnode.

Fixpoint insert (fuel : nat) (root : ptr) (d : Z) : M ptr :=
  match fuel with
  | O => fun _ => OutOfFuel
  | S fuel' =>
      match root with
      | None => createnode d
      | Some _ =>
          let! n := load root in
          if d <? data n then
            let! l := insert fuel' (left n) d in
            store root (set_left l) ;;;
            ret root
          else
            let! r := insert fuel' (right n) d in
            store root (set_right r) ;;;
            ret root
      end
  end.

Definition getheight (root : ptr) : M Z :=
  match root with
  | None => ret 0
  | Some _ => let! n := load root in ret (height n)
  end.

Definition max (a b : Z) : Z := if a >? b then a else b.

Definition updateheight (root : ptr) : M Z :=
  let! n := load root in
  let! leftHeight := getheight (left n) in
  let! rightHeight := getheight (right n) in
  let! h := int_result (max leftHeight rightHeight + 1) in
  store root (set_height h) ;;;
  let! n' := load root in
  ret (height n').

Definition balancingfactor (root : ptr) : M Z :=
  match root with
  | None => ret 0
  | Some _ =>
      let! n := load root in
      let! leftheight := getheight (left n) in
      let! rightheight := getheight (right n) in
      int_result (leftheight - rightheight)
  end.

Definition leftrotation (root : ptr) : M ptr :=
  let! n := load root in
  let newnode := right n in
  let! nn := load newnode in
  let newsubtree := left nn in
  store newnode (set_left root) ;;;
  store root (set_right newsubtree) ;;;
  ret newnode.

Definition rightrotation (root : ptr) : M ptr :=
  let! n := load root in
  let newnode := left n in
  let! nn := load newnode in
  let newsubtree := right nn in
  store newnode (set_right root) ;;;
  store root (set_left newsubtree) ;;;
  ret newnode.

Definition rightleftrotation (root : ptr) : M ptr :=
  let! n := load root in
  let! r := rightrotation (right n) in
  store root (set_right r) ;;;
  leftrotation root.

Definition leftrightrotation (root : ptr) : M ptr :=
  let! n := load root in
  let! l := leftrotation (left n) in
  store root (set_left l) ;;;
  rightrotation root.

Definition balance (root : ptr) : M ptr :=
  let! balancefactor := balancingfactor root in
  updateheight root ;;;
  if balancefactor >? 1 then
    let! n := load root in
    let! bl := balancingfactor (left n) in
    if bl <? 0 then leftrightrotation root else rightrotation root
  else if balancefactor <? -1 then
    let! n := load root in
    let! br := balancingfactor (right n) in
    if br >? 0 then rightleftrotation root else leftrotation root
  else ret root.

(** [inorder] prints the keys; the value of the computation is the
    sequence printed. *)
Fixpoint inorder (fuel : nat) (root : ptr) : M (list Z) :=
  match fuel with
  | O => fun _ => OutOfFuel
  | S fuel' =>
      match root with
      | None => ret []
      | Some _ =>
          let! n := load root in
          let! ls := inorder fuel' (left n) in
          let! n' := load root in
          let! rs := inorder fuel' (right n') in
          ret (ls ++ data n' :: rs)
      end
  end.

(** The loop of [main] over the rest of the array:
    [root = insert(root, data[i]); root = balance(root);]. *)
Fixpoint main_loop (fuel : nat) (root : ptr) (rest : list Z) : M ptr :=
  match rest with
  | [] => ret root
  | d :: rest' =>
      let! root1 := insert fuel root d in
      let! root2 := balance root1 in
      main_loop fuel root2 rest'
  end.

(** [main] on an array [d0 :: rest]; it yields the final root and what
    [inorder] printed. *)
Definition main_on (fuel : nat) (d0 : Z) (rest : list Z) : M (ptr * list Z) :=
  let! root := createnode d0 in
  let! root' := main_loop fuel root rest in
  let! out := inorder fuel root' in
  ret (root', out).

Definition main (fuel : nat) : M (ptr * list Z) :=
  main_on fuel (hd 0 data_array) (tl data_array).

(** Keys inserted one at a time, by [insert] alone, from a given root. *)
Fixpoint insert_all (fuel : nat) (root : ptr) (keys : list Z) : M ptr :=
  match keys with
  | [] => ret root
  | d :: keys' =>
      let! root' := insert fuel root d in
      insert_all fuel root' keys'
  end.

End Program.

(** The variant of [insert] the specification describes: descend,
    attach, then [balance] every ancestor on the unwind.  It follows the
    specification's words, not the source, and is only compared with
    [insert]. *)
Fixpoint insert_spec (uninit : addr -> node) (fuel : nat) (root : ptr) (d : Z)
  : M ptr :=
  match fuel with
  | O => fun _ => OutOfFuel
  | S fuel' =>
      match root with
      | None => createnode uninit d
      | Some _ =>
          let! n := load root in
          (if d <? data n then
             let! l := insert_spec uninit fuel' (left n) d in
             store root (set_left l)
           else
             let! r := insert_spec uninit fuel' (right n) d in
             store root (set_right r)) ;;;
          balance root
      end
  end.

(** The variant of [balance] with its first two steps exchanged: the
    height of [root] is refreshed before the balance factor is read. *)
Definition balance_height_first (root : ptr) : M ptr :=
  updateheight root ;;;
  let! balancefactor := balancingfactor root in
  if balancefactor >? 1 then
    let! n := load root in
    let! bl := balancingfactor (left n) in
    if bl <? 0 then leftrightrotation root else rightrotation root
  else if balancefactor <? -1 then
    let! n := load root in
    let! br := balancingfactor (right n) in
    if br >? 0 then rightleftrotation root else leftrotation root
  else ret root.

(** ** Trees in the heap *)

(** A tree of heap blocks: every node records the address of its block,
    its key and the content of its height field. *)
Inductive tree : Type :=
| E
| T (a : addr) (l : tree) (k : Z) (h : Z) (r : tree).
Arguments T a%_nat l k%_Z h%_Z r.

Definition root_of (t : tree) : ptr :=
  match t with
  | E => None
  | T a _ _ _ _ => Some a
  end.

(** The blocks of a tree, its keys (both in order) and its height, the
    height of the absent tree being 0. *)
Fixpoint addrs (t : tree) : list addr :=
  match t with
  | E => []
  | T a l _ _ r => addrs l ++ a :: addrs r
  end.

Fixpoint keys (t : tree) : list Z :=
  match t with
  | E => []
  | T _ l k _ r => keys l ++ k :: keys r
  end.

Fixpoint depth (t : tree) : nat :=
  match t with
  | E => O
  | T _ l _ _ r => S (Nat.max (depth l) (depth r))
  end.

(** The content of the height field at the root, read as [getheight]
    reads it. *)
Definition stored_height (t : tree) : Z :=
  match t with
  | E => 0
  | T _ _ _ h _ => h
  end.

(** Every block of [t] is in the heap [m] with the key, the height and
    the two links [t] gives it. *)
Fixpoint cells_at (m : heap) (t : tree) : Prop :=
  match t with
  | E => True
  | T a l k h r =>
      m !! a = Some (mknode k (root_of l) (root_of r) h)
      /\ cells_at m l /\ cells_at m r
  end.

(** [p] points to the tree [t] in [m]: a tree has no block twice. *)
Definition tree_at (m : heap) (p : ptr) (t : tree) : Prop :=
  p = root_of t /\ cells_at m t /\ NoDup (addrs t).

(** Attaching a new leaf, held in block [new] with height field [hn], at
    the place where the descent of [insert] ends. *)
Fixpoint attach (new : addr) (hn : Z) (d : Z) (t : tree) : tree :=
  match t with
  | E => T new E d hn E
  | T a l k h r =>
      if d <? k then T a (attach new hn d l) k h r
      else T a l k h (attach new hn d r)
  end.

(** The two single rotations on trees. *)
Definition rotate_left (t : tree) : tree :=
  match t with
  | T a l k h (T b rl kb hb rr) => T b (T a l k h rl) kb hb rr
  | _ => t
  end.

Definition rotate_right (t : tree) : tree :=
  match t with
  | T a (T b ll kb hb lr) k h r => T b ll kb hb (T a lr k h r)
  | _ => t
  end.

(** Search-tree order: smaller keys to the left, others to the right. *)
Fixpoint bst (t : tree) : Prop :=
  match t with
  | E => True
  | T _ l k _ r =>
      bst l /\ bst r /\ Forall (fun x => x < k) (keys l)
      /\ Forall (fun x => k <= x) (keys r)
  end.

(** The AVL condition on the real heights. *)
Fixpoint balanced (t : tree) : Prop :=
  match t with
  | E => True
  | T _ l _ _ r =>
      Z.abs (Z.of_nat (depth l) - Z.of_nat (depth r)) <= 1
      /\ balanced l /\ balanced r
  end.

(** Every height field is one more than the larger of the heights of the
    two children, read on their height fields ([heights_ok]) or taken as
    their real heights ([heights_real]). *)
Fixpoint heights_ok (t : tree) : Prop :=
  match t with
  | E => True
  | T _ l _ h r =>
      h = 1 + Z.max (stored_height l) (stored_height r)
      /\ heights_ok l /\ heights_ok r
  end.

Fixpoint heights_real (t : tree) : Prop :=
  match t with
  | E => True
  | T _ l _ h r =>
      h = 1 + Z.max (Z.of_nat (depth l)) (Z.of_nat (depth r))
      /\ heights_real l /\ heights_real r
  end.

(** Fresh memory as the operating system usually hands it out: zeroed. *)
Definition zero_fill : addr -> node := fun _ => mknode 0 None None 0.

(** Fresh memory in which the key word and the height word of every
    block hold [v]. *)
Definition junk_fill (v : Z) : addr -> node := fun _ => mknode v None None v.

(** Fresh memory whose first three blocks hold 0, 2 and 1 in the height
    word. *)
Definition heights_021 : addr -> node :=
  fun a =>
    mknode 0 None None
      (match a with 1%nat => 2 | 2%nat => 1 | _ => 0 end).

(** The heap [m'] is [m] with the leaf [lf] allocated in block [new] and
    one link of one block [c] of [t], NULL before, now pointing to it. *)
Definition one_link (m m' : heap) (new : addr) (d : Z) (lf : node) (t : tree)
  : Prop :=
  exists (c : addr) (n : node),
    c ∈ addrs t /\ m !! c = Some n /\
    ((d < data n /\ left n = None
      /\ m' = <[c := set_left (Some new) n]> m ++ [lf])
     \/ (data n <= d /\ right n = None
         /\ m' = <[c := set_right (Some new) n]> m ++ [lf])).

Definition leaf_of (uninit : addr -> node) (m : heap) (d : Z) : node :=
  mknode d None None (height (uninit (length m))).

(** [m'] has the blocks of [m], each with its key and its height field:
    only links may differ. *)
Definition relinked (m m' : heap) : Prop :=
  length m' = length m /\
  forall (x : addr) (n : node),
    m !! x = Some n ->
    exists n', m' !! x = Some n' /\ data n' = data n /\ height n' = height n.

(** The AVL condition read on the height fields, as [getheight] reads
    them. *)
Fixpoint balanced_fields (t : tree) : Prop :=
  match t with
  | E => True
  | T _ l _ _ r =>
      Z.abs (stored_height l - stored_height r) <= 1
      /\ balanced_fields l /\ balanced_fields r
  end.

Definition has_left (t : tree) : Prop :=
  match t with
  | T _ (T _ _ _ _ _) _ _ _ => True
  | _ => False
  end.

Definition has_right (t : tree) : Prop :=
  match t with
  | T _ _ _ _ (T _ _ _ _ _) => True
  | _ => False
  end.

(** What [balance] does to a tree, read on trees: the height of the root
    is refreshed from the height fields of its children, then the root is
    rotated as the two balance factors (computed on height fields) tell.
    [None] stands for undefined behaviour: an [int] overflow, or a
    rotation that needs a child that is absent. *)
Definition balance_tree (t : tree) : option tree :=
  match t with
  | E => None
  | T a l k h r =>
      let bf := stored_height l - stored_height r in
      let h' := max (stored_height l) (stored_height r) + 1 in
      if in_int bf && in_int h' then
        if bf >? 1 then
          match l with
          | E => None
          | T b ll kb hb lr =>
              let bl := stored_height ll - stored_height lr in
              if in_int bl then
                if bl <? 0 then
                  match lr with
                  | E => None
                  | T c cl kc hc cr =>
                      Some (T c (T b ll kb hb cl) kc hc (T a cr k h' r))
                  end
                else Some (T b ll kb hb (T a lr k h' r))
              else None
          end
        else if bf <? -1 then
          match r with
          | E => None
          | T b rl kb hb rr =>
              let br := stored_height rl - stored_height rr in
              if in_int br then
                if br >? 0 then
                  match rl with
                  | E => None
                  | T c cl kc hc cr =>
                      Some (T c (T a l k h' cl) kc hc (T b cr kb hb rr))
                  end
                else Some (T b (T a l k h' rl) kb hb rr)
              else None
          end
        else Some (T a l k h' r)
      else None
  end.

(** The tree [t] with the height field of its root set to [h]. *)
Definition retop (h : Z) (t : tree) : tree :=
  match t with
  | E => E
  | T a l k _ r => T a l k h r
  end.

(** The keys [ks] attached one after the other, the leaves taking the
    consecutive blocks from [new] on. *)
Fixpoint attach_all (uninit : addr -> node) (new : addr) (ks : list Z)
    (t : tree) : tree :=
  match ks with
  | [] => t
  | d :: ks' =>
      attach_all uninit (S new) ks' (attach new (height (uninit new)) d t)
  end.

(** The key at the root, if any. *)
Definition root_key (t : tree) : option Z :=
  match t with
  | E => None
  | T _ _ k _ _ => Some k
  end.

(** The right subtree and the left subtree of the root. *)
Definition right_sub (t : tree) : tree :=
  match t with
  | E => E
  | T _ _ _ _ r => r
  end.

Definition left_sub (t : tree) : tree :=
  match t with
  | E => E
  | T _ l _ _ _ => l
  end.

(** No node of the tree has a left child: the tree is a chain down the
    right. *)
Fixpoint left_free (t : tree) : Prop :=
  match t with
  | E => True
  | T _ l _ _ r => l = E /\ left_free r
  end.

(** The two composite rotations on trees. *)
Definition rotate_left_right (t : tree) : tree :=
  match t with
  | E => E
  | T a l k h r => rotate_right (T a (rotate_left l) k h r)
  end.

Definition rotate_right_left (t : tree) : tree :=
  match t with
  | E => E
  | T a l k h r => rotate_left (T a l k h (rotate_right r))
  end.

(** Heaps used as concrete inputs. *)

(** Root 2 (block 0) with the leaves 1 (block 1) and 3 (block 2). *)
Definition heap_213 : heap :=
  [mknode 2 (Some 1%nat) (Some 2%nat) 2; mknode 1 None None 1;
   mknode 3 None None 1].
Definition tree_213 : tree :=
  T 0 (T 1 E 1 1 E) 2 2 (T 2 E 3 1 E).

(** The chain 1 (block 0), right child 3 (block 1), whose left child is
    2 (block 2), with the height fields of 3 and 2 accurate. *)
Definition heap_132 : heap :=
  [mknode 1 None (Some 1%nat) 1; mknode 3 (Some 2%nat) None 2;
   mknode 2 None None 1].
Definition tree_132 : tree :=
  T 0 E 1 1 (T 1 (T 2 E 2 1 E) 3 2 E).

(** The chain 1, 2, 3 down the right (blocks 0, 1, 2) with accurate
    height fields. *)
Definition heap_123 : heap :=
  [mknode 1 None (Some 1%nat) 3; mknode 2 None (Some 2%nat) 2;
   mknode 3 None None 1].

(** The chain of the given keys down the right, in consecutive blocks
    from [a], the root with height field [h0] and every other block with
    height field 0. *)
Fixpoint right_chain (a : addr) (h0 : Z) (ks : list Z) : tree :=
  match ks with
  | [] => E
  | k :: ks' => T a E k h0 (right_chain (S a) 0 ks')
  end.
Arguments right_chain a%_nat h0%_Z ks.

(** The chain 3 (block 0), left child 2 (block 1), whose left child is 1
    (block 2), and the zig-zag 3, left child 1, whose right child is 2,
    both with accurate height fields. *)
Definition heap_321 : heap :=
  [mknode 3 (Some 1%nat) None 3; mknode 2 (Some 2%nat) None 2;
   mknode 1 None None 1].
Definition tree_321 : tree :=
  T 0 (T 1 (T 2 E 1 1 E) 2 2 E) 3 3 E.

Definition heap_312 : heap :=
  [mknode 3 (Some 1%nat) None 3; mknode 1 None (Some 2%nat) 2;
   mknode 2 None None 1].
Definition tree_312 : tree :=
  T 0 (T 1 E 1 2 (T 2 E 2 1 E)) 3 3 E.

Definition tree_123 : tree :=
  T 0 E 1 3 (T 1 E 2 2 (T 2 E 3 1 E)).

(** A block that is its own left child: not a tree. *)
Definition heap_self : heap := [mknode 1 (Some 0%nat) None 1].

Ltac tree_at_here :=
  split; [reflexivity|];
  split; [cbn; repeat split|apply (bool_decide_unpack _); vm_compute; exact I].

(** ** Running loads, stores and allocation *)

Lemma load_at (m : heap) (a : addr) (n : node) :
  m !! a = Some n -> load (Some a) m = Ret n m.
Proof. intros H. unfold load. now rewrite H. Qed.

Lemma store_at (m : heap) (a : addr) (n : node) (f : node -> node) :
  m !! a = Some n -> store (Some a) f m = Ret tt (<[a := f n]> m).
Proof. intros H. unfold store. now rewrite H. Qed.

Lemma bind_ret {A B} (c : M A) (k : A -> M B) (m m' : heap) (v : A) :
  c m = Ret v m' -> bind c k m = k v m'.
Proof. intros H. unfold bind. now rewrite H. Qed.

Lemma store_last (m : heap) (x : node) (f : node -> node) :
  store (Some (length m)) f (m ++ [x]) = Ret tt (m ++ [f x]).
Proof.
  unfold store. rewrite list_lookup_middle by reflexivity.
  rewrite insert_app_r_alt by lia. now rewrite Nat.sub_diag.
Qed.

Lemma createnode_runs (uninit : addr -> node) (d : Z) (m : heap) :
  createnode uninit d m
  = Ret (Some (length m))
        (m ++ [mknode d None None (height (uninit (length m)))]).
Proof.
  unfold createnode, malloc, bind. now rewrite !store_last.
Qed.

Lemma getheight_at (m : heap) (t : tree) :
  cells_at m t -> getheight (root_of t) m = Ret (stored_height t) m.
Proof.
  destruct t as [|a l k h r]; [reflexivity|].
  intros [Ha _]. unfold getheight, root_of.
  now rewrite (bind_ret _ _ _ _ _ (load_at _ _ _ Ha)).
Qed.

(** ** Frame properties of [cells_at] *)

Lemma cells_at_bound (m : heap) (t : tree) (a : addr) :
  cells_at m t -> a ∈ addrs t -> (a < length m)%nat.
Proof.
  induction t as [|b l IHl k h r IHr]; cbn.
  - intros _ H. inversion H.
  - intros (Hb & Hl & Hr) Hin.
    apply elem_of_app in Hin as [Hin|Hin]; [auto|].
    apply elem_of_cons in Hin as [->|Hin]; [|auto].
    eapply lookup_lt_Some, Hb.
Qed.

Lemma cells_at_alloc (m : heap) (t : tree) (n : node) :
  cells_at m t -> cells_at (m ++ [n]) t.
Proof.
  induction t as [|b l IHl k h r IHr]; cbn; [trivial|].
  intros (Hb & Hl & Hr). repeat split; auto.
  now apply lookup_app_l_Some.
Qed.

Lemma cells_at_frame (m : heap) (t : tree) (a : addr) (n : node) :
  cells_at m t -> a ∉ addrs t -> cells_at (<[a := n]> m) t.
Proof.
  induction t as [|b l IHl k h r IHr]; cbn; [trivial|].
  intros (Hb & Hl & Hr) Hnot.
  rewrite not_elem_of_app, not_elem_of_cons in Hnot.
  destruct Hnot as (Hal & Hab & Har).
  repeat split; auto.
  now rewrite list_lookup_insert_ne.
Qed.

Lemma cells_at_ext (m m' : heap) (t : tree) :
  (forall x, x ∈ addrs t -> m' !! x = m !! x) ->
  cells_at m t -> cells_at m' t.
Proof.
  induction t as [|b l IHl k h r IHr]; cbn; [trivial|].
  intros Hsame (Hb & Hl & Hr). repeat split.
  - rewrite Hsame; [assumption|]. apply elem_of_app. right. apply elem_of_cons. now left.
  - apply IHl; [|assumption]. intros x Hx. apply Hsame, elem_of_app. now left.
  - apply IHr; [|assumption]. intros x Hx. apply Hsame, elem_of_app. right.
    apply elem_of_cons. now right.
Qed.

(** ** [insert] attaches one leaf *)

Lemma attach_root (new : addr) (hn d : Z) (a : addr) (l : tree) (k h : Z) (r : tree) :
  root_of (attach new hn d (T a l k h r)) = Some a.
Proof. cbn. now destruct (d <? k). Qed.

Lemma addrs_attach (new : addr) (hn d : Z) (t : tree) (x : addr) :
  x ∈ addrs (attach new hn d t) <-> x = new \/ x ∈ addrs t.
Proof.
  induction t as [|b l IHl k h r IHr]; cbn.
  - rewrite elem_of_cons. tauto.
  - destruct (d <? k); cbn;
      rewrite !elem_of_app, !elem_of_cons, ?IHl, ?IHr; tauto.
Qed.

Lemma depth_attach (new : addr) (hn d : Z) (t : tree) :
  (depth (attach new hn d t) <= S (depth t))%nat.
Proof.
  induction t as [|b l IHl k h r IHr]; cbn; [lia|].
  destruct (d <? k); cbn; lia.
Qed.

Lemma insert_runs (uninit : addr -> node) (t : tree) :
  forall (fuel : nat) (m : heap) (d : Z),
    cells_at m t -> NoDup (addrs t) -> (depth t < fuel)%nat ->
    exists m',
      insert uninit fuel (root_of t) d m
      = Ret (root_of (attach (length m) (height (uninit (length m))) d t)) m'
      /\ length m' = S (length m)
      /\ cells_at m' (attach (length m) (height (uninit (length m))) d t)
      /\ (forall x, (x < length m)%nat -> x ∉ addrs t -> m' !! x = m !! x)
      /\ match t with
         | E => m' = m ++ [leaf_of uninit m d]
         | _ => one_link m m' (length m) d (leaf_of uninit m d) t
         end.
Proof.
  induction t as [|a l IHl k h r IHr]; intros fuel m d Hc Hnd Hfuel.
  - destruct fuel as [|fuel]; [cbn in Hfuel; lia|].
    exists (m ++ [leaf_of uninit m d]). cbn [insert root_of attach].
    rewrite createnode_runs. repeat split.
    + rewrite length_app. cbn. lia.
    + now apply list_lookup_middle.
    + intros x Hx _. now apply lookup_app_l.
  - destruct fuel as [|fuel]; [cbn in Hfuel; lia|].
    cbn in Hfuel. destruct Hc as (Ha & Hl & Hr).
    cbn [addrs] in Hnd. apply NoDup_app in Hnd as (Hndl & Hdisj & Hndar).
    apply NoDup_cons in Hndar as (Har & Hndr).
    assert (Hal : a ∉ addrs l).
    { intros Hin. apply (Hdisj _ Hin). apply elem_of_cons. now left. }
    assert (Halt : (a < length m)%nat) by (eapply lookup_lt_Some, Ha).
    cbn [insert root_of attach].
    rewrite (bind_ret _ _ _ _ _ (load_at _ _ _ Ha)). cbn [data left right].
    destruct (d <? k) eqn:Hd.
    + destruct (IHl fuel m d Hl Hndl ltac:(lia)) as (m1 & Hrun & Hlen & Hc1 & Hfr & Hlink).
      rewrite (bind_ret _ _ _ _ _ Hrun).
      assert (Ha1 : m1 !! a = Some (mknode k (root_of l) (root_of r) h)).
      { rewrite Hfr; auto. }
      rewrite (bind_ret _ _ _ _ _ (store_at _ _ _ _ Ha1)).
      eexists. split; [reflexivity|]. cbn [set_left data right height].
      split; [now rewrite length_insert|].
      split; [|split].
      * cbn [cells_at root_of]. split; [|split].
        -- apply list_lookup_insert_eq. lia.
        -- apply cells_at_frame; [assumption|].
           rewrite addrs_attach. intros [->|Hin]; [lia|contradiction].
        -- apply cells_at_frame; [|assumption].
           apply (cells_at_ext m); [|assumption].
           intros x Hx. apply Hfr.
           ++ now apply (cells_at_bound m r).
           ++ intros Hin. apply (Hdisj _ Hin). apply elem_of_cons. now right.
      * intros x Hx Hnot. cbn [addrs] in Hnot.
        rewrite not_elem_of_app, not_elem_of_cons in Hnot.
        destruct Hnot as (Hxl & Hxa & Hxr).
        rewrite list_lookup_insert_ne by congruence. now apply Hfr.
      * destruct l as [|b ll kb hb lr].
        -- subst m1. exists a, (mknode k None (root_of r) h).
           split; [cbn; apply elem_of_cons; now left|].
           split; [assumption|]. left.
           split; [cbn; lia|]. split; [reflexivity|].
           cbn [attach root_of]. now rewrite insert_app_l.
        -- rewrite attach_root. cbn [root_of] in *.
           rewrite list_insert_id by assumption.
           destruct Hlink as (c & n & Hcin & Hcn & Hcases).
           exists c, n. split; [|now split].
           cbn [addrs]. apply elem_of_app. now left.
    + destruct (IHr fuel m d Hr Hndr ltac:(lia)) as (m1 & Hrun & Hlen & Hc1 & Hfr & Hlink).
      rewrite (bind_ret _ _ _ _ _ Hrun).
      assert (Ha1 : m1 !! a = Some (mknode k (root_of l) (root_of r) h)).
      { rewrite Hfr; auto. }
      rewrite (bind_ret _ _ _ _ _ (store_at _ _ _ _ Ha1)).
      eexists. split; [reflexivity|]. cbn [set_right data left height].
      split; [now rewrite length_insert|].
      split; [|split].
      * cbn [cells_at root_of]. split; [|split].
        -- apply list_lookup_insert_eq. lia.
        -- apply cells_at_frame; [|assumption].
           apply (cells_at_ext m); [|assumption].
           intros x Hx. apply Hfr.
           ++ now apply (cells_at_bound m l).
           ++ intros Hin. apply (Hdisj _ Hx). apply elem_of_cons. now right.
        -- apply cells_at_frame; [assumption|].
           rewrite addrs_attach. intros [->|Hin]; [lia|contradiction].
      * intros x Hx Hnot. cbn [addrs] in Hnot.
        rewrite not_elem_of_app, not_elem_of_cons in Hnot.
        destruct Hnot as (Hxl & Hxa & Hxr).
        rewrite list_lookup_insert_ne by congruence. now apply Hfr.
      * destruct r as [|b rl kb hb rr].
        -- subst m1. exists a, (mknode k (root_of l) None h).
           split; [cbn; apply elem_of_app; right; apply elem_of_cons; now left|].
           split; [assumption|]. right.
           split; [cbn; lia|]. split; [reflexivity|].
           cbn [attach root_of]. now rewrite insert_app_l.
        -- rewrite attach_root. cbn [root_of] in *.
           rewrite list_insert_id by assumption.
           destruct Hlink as (c & n & Hcin & Hcn & Hcases).
           exists c, n. split; [|now split].
           cbn [addrs]. apply elem_of_app. right. apply elem_of_cons. now right.
Qed.

(** ** Order and content of the keys *)

Lemma keys_attach (new : addr) (hn d : Z) (t : tree) :
  Permutation (keys (attach new hn d t)) (d :: keys t).
Proof.
  induction t as [|a l IHl k h r IHr]; cbn; [reflexivity|].
  destruct (d <? k); cbn.
  - now rewrite IHl.
  - rewrite IHr. etransitivity; [apply Permutation_app_head, perm_swap|].
    symmetry. apply Permutation_middle.
Qed.

Lemma Forall_keys_attach (P : Z -> Prop) (new : addr) (hn d : Z) (t : tree) :
  Forall P (keys (attach new hn d t)) <-> P d /\ Forall P (keys t).
Proof.
  split.
  - intros H. apply Forall_cons. now rewrite <- (keys_attach new hn).
  - intros H. rewrite keys_attach. now apply Forall_cons.
Qed.

Lemma bst_attach (new : addr) (hn d : Z) (t : tree) :
  bst t -> bst (attach new hn d t).
Proof.
  induction t as [|a l IHl k h r IHr]; cbn.
  - intros _. repeat split; constructor.
  - intros (Hl & Hr & Hlt & Hge).
    destruct (d <? k) eqn:Hd; cbn; repeat split; auto.
    + apply Forall_keys_attach. split; [lia|assumption].
    + apply Forall_keys_attach. split; [lia|assumption].
Qed.

Lemma bst_sorted (t : tree) : bst t -> StronglySorted Z.le (keys t).
Proof.
  induction t as [|a l IHl k h r IHr]; cbn; [constructor|].
  intros (Hl & Hr & Hlt & Hge).
  apply StronglySorted_app_2; [|auto|].
  - intros x1 x2 H1 H2. rewrite Forall_forall in Hlt, Hge.
    specialize (Hlt _ H1). apply elem_of_cons in H2 as [->|H2]; [lia|].
    specialize (Hge _ H2). lia.
  - apply StronglySorted_cons. auto.
Qed.

Lemma NoDup_attach (new : addr) (hn d : Z) (t : tree) :
  NoDup (addrs t) -> new ∉ addrs t -> NoDup (addrs (attach new hn d t)).
Proof.
  induction t as [|a l IHl k h r IHr]; cbn.
  - intros _ _. apply NoDup_singleton.
  - intros Hnd Hnew.
    apply NoDup_app in Hnd as (Hndl & Hdisj & Hndar).
    apply NoDup_cons in Hndar as (Har & Hndr).
    rewrite not_elem_of_app, not_elem_of_cons in Hnew.
    destruct Hnew as (Hnl & Hna & Hnr).
    destruct (d <? k); cbn; apply NoDup_app.
    + split; [auto|]. split; [|now apply NoDup_cons].
      intros x Hx. apply addrs_attach in Hx as [->|Hx]; [|auto].
      rewrite not_elem_of_cons. auto.
    + split; [auto|]. split.
      * intros x Hx Hin. apply (Hdisj _ Hx).
        apply elem_of_cons in Hin as [->|Hin]; [apply elem_of_cons; now left|].
        apply addrs_attach in Hin as [->|Hin]; [contradiction|].
        apply elem_of_cons. now right.
      * apply NoDup_cons. split; [|auto].
        rewrite addrs_attach. intros [->|Hin]; [congruence|contradiction].
Qed.

Lemma length_keys_addrs (t : tree) : length (keys t) = length (addrs t).
Proof.
  induction t as [|a l IHl k h r IHr]; cbn; [reflexivity|].
  rewrite !length_app. cbn. now rewrite IHl, IHr.
Qed.

(** ** [inorder] prints the keys of the tree *)

Lemma inorder_runs (t : tree) :
  forall (fuel : nat) (m : heap),
    cells_at m t -> (depth t < fuel)%nat ->
    inorder fuel (root_of t) m = Ret (keys t) m.
Proof.
  induction t as [|a l IHl k h r IHr]; intros fuel m Hc Hfuel;
    (destruct fuel as [|fuel]; [cbn in Hfuel; lia|]); [reflexivity|].
  cbn in Hfuel. destruct Hc as (Ha & Hl & Hr).
  cbn [inorder root_of keys].
  rewrite (bind_ret _ _ _ _ _ (load_at _ _ _ Ha)). cbn [left].
  rewrite (bind_ret _ _ _ _ _ (IHl fuel m Hl ltac:(lia))).
  rewrite (bind_ret _ _ _ _ _ (load_at _ _ _ Ha)). cbn [right data].
  rewrite (bind_ret _ _ _ _ _ (IHr fuel m Hr ltac:(lia))).
  reflexivity.
Qed.

(** ** Sequences of insertions *)

Lemma tree_at_fresh (m : heap) (t : tree) :
  cells_at m t -> length m ∉ addrs t.
Proof.
  intros Hc Hin. pose proof (cells_at_bound _ _ _ Hc Hin). lia.
Qed.

Lemma insert_all_runs (uninit : addr -> node) (ks : list Z) :
  forall (t : tree) (m : heap) (fuel : nat),
    cells_at m t -> NoDup (addrs t) -> bst t ->
    (depth t + length ks < fuel)%nat ->
    exists (t' : tree) (m' : heap),
      insert_all uninit fuel (root_of t) ks m = Ret (root_of t') m'
      /\ cells_at m' t' /\ NoDup (addrs t') /\ bst t'
      /\ Permutation (keys t') (ks ++ keys t)
      /\ (depth t' <= depth t + length ks)%nat
      /\ length m' = (length m + length ks)%nat.
Proof.
  induction ks as [|d ks IH]; intros t m fuel Hc Hnd Hbst Hfuel.
  - exists t, m. cbn. repeat split; auto; lia.
  - cbn [length] in Hfuel. cbn [insert_all].
    destruct (insert_runs uninit t fuel m d Hc Hnd ltac:(lia))
      as (m1 & Hrun & Hlen & Hc1 & _ & _).
    rewrite (bind_ret _ _ _ _ _ Hrun).
    set (t1 := attach (length m) (height (uninit (length m))) d t) in *.
    assert (Hd1 : (depth t1 <= S (depth t))%nat) by apply depth_attach.
    destruct (IH t1 m1 fuel Hc1) as (t' & m' & Hrun' & Hc' & Hnd' & Hbst' & Hperm & Hdep & Hlen').
    + apply NoDup_attach; [assumption|]. now apply tree_at_fresh.
    + now apply bst_attach.
    + lia.
    + exists t', m'. repeat split; auto.
      * rewrite Hperm. unfold t1. rewrite keys_attach.
        cbn. symmetry. apply Permutation_middle.
      * cbn [length]. lia.
      * cbn [length]. lia.
Qed.

(** ** What a sequence of insertions builds *)

(** C3: keys inserted one at a time, starting from the empty tree, by
    [insert]: every call returns, and [inorder] on the final tree prints a
    non-decreasing sequence that is a permutation of the inserted keys;
    the tree has one block per inserted key. *)
Theorem insert_sequence_sorted (uninit : addr -> node) (ks : list Z)
    (m0 : heap) (fuel : nat) :
  (length ks < fuel)%nat ->
  exists (t : tree) (m : heap),
    insert_all uninit fuel None ks m0 = Ret (root_of t) m
    /\ tree_at m (root_of t) t
    /\ inorder fuel (root_of t) m = Ret (keys t) m
    /\ StronglySorted Z.le (keys t)
    /\ Permutation (keys t) ks
    /\ length (addrs t) = length ks
    /\ length m = (length m0 + length ks)%nat.
Proof.
  intros Hfuel.
  destruct (insert_all_runs uninit ks E m0 fuel I (NoDup_nil_2) I ltac:(cbn; lia))
    as (t & m & Hrun & Hc & Hnd & Hbst & Hperm & Hdep & Hlen).
  cbn in Hdep. rewrite app_nil_r in Hperm.
  exists t, m. repeat split; auto.
  - apply inorder_runs; [assumption|lia].
  - now apply bst_sorted.
  - rewrite <- length_keys_addrs. now apply Permutation_length.
Qed.

Lemma insert_sequence_sorted_witness :
  exists (t : tree) (m : heap),
    insert_all zero_fill 4 None [2; 1; 2] [] = Ret (root_of t) m
    /\ tree_at m (root_of t) t
    /\ inorder 4 (root_of t) m = Ret (keys t) m
    /\ StronglySorted Z.le (keys t)
    /\ Permutation (keys t) [2; 1; 2]
    /\ length (addrs t) = length [2; 1; 2]
    /\ length m = (length (@nil node) + length [2; 1; 2])%nat.
Proof. apply (insert_sequence_sorted zero_fill [2; 1; 2] [] 4). cbn. lia. Defined.

(** C10: on a non-empty tree, [insert] returns the root it was given; the
    heap it leaves is the old one with the new leaf allocated and one
    link, NULL before, pointing to it.  No key and no height field of an
    old block changes, and the tree is the old one with the leaf
    attached where the descent ends. *)
Theorem insert_only_links_leaf (uninit : addr -> node) (m : heap) (a : addr)
    (t : tree) (d : Z) (fuel : nat) :
  tree_at m (Some a) t ->
  (depth t < fuel)%nat ->
  exists m',
    insert uninit fuel (Some a) d m = Ret (Some a) m'
    /\ one_link m m' (length m) d (leaf_of uninit m d) t
    /\ (forall (x : addr) (n : node),
          m !! x = Some n ->
          exists n', m' !! x = Some n'
                     /\ data n' = data n /\ height n' = height n)
    /\ tree_at m' (Some a) (attach (length m) (height (uninit (length m))) d t).
Proof.
  intros (Hroot & Hc & Hnd) Hfuel.
  destruct t as [|a' l k h r]; [discriminate|].
  cbn in Hroot. injection Hroot as <-.
  destruct (insert_runs uninit _ fuel m d Hc Hnd Hfuel)
    as (m' & Hrun & Hlen & Hc' & Hfr & Hlink).
  rewrite attach_root in Hrun. cbn [root_of] in Hrun.
  exists m'. split; [assumption|]. split; [assumption|]. split.
  - destruct Hlink as (c & n & Hcin & Hcn & Hcases).
    intros x nx Hx.
    assert (Hxlt : (x < length m)%nat) by (eapply lookup_lt_Some, Hx).
    assert (Hclt : (c < length m)%nat) by (eapply lookup_lt_Some, Hcn).
    destruct Hcases as [(_ & _ & ->)|(_ & _ & ->)];
      (rewrite lookup_app_l by (rewrite length_insert; lia));
      (destruct (decide (c = x)) as [->|Hne];
       [rewrite list_lookup_insert_eq by lia;
        rewrite Hcn in Hx; injection Hx as <-; eexists; split; [reflexivity|now split]
       |rewrite list_lookup_insert_ne by assumption; exists nx; now split]).
  - split; [now rewrite attach_root|]. split; [assumption|].
    apply NoDup_attach; [assumption|]. now apply tree_at_fresh.
Qed.

(** ** Rotations *)

Lemma relinked_refl (m : heap) : relinked m m.
Proof. split; [reflexivity|]. intros x n Hx. exists n. now split. Qed.

Lemma relinked_trans (m1 m2 m3 : heap) :
  relinked m1 m2 -> relinked m2 m3 -> relinked m1 m3.
Proof.
  intros (Hl12 & H12) (Hl23 & H23). split; [congruence|].
  intros x n Hx. destruct (H12 _ _ Hx) as (n2 & Hx2 & Hd2 & Hh2).
  destruct (H23 _ _ Hx2) as (n3 & Hx3 & Hd3 & Hh3).
  exists n3. repeat split; congruence.
Qed.

Lemma relinked_store (m : heap) (a : addr) (n n' : node) :
  m !! a = Some n -> data n' = data n -> height n' = height n ->
  relinked m (<[a := n']> m).
Proof.
  intros Ha Hd Hh. split; [apply length_insert|].
  intros x nx Hx. destruct (decide (a = x)) as [->|Hne].
  - rewrite list_lookup_insert_eq by (eapply lookup_lt_Some, Hx).
    exists n'. rewrite Ha in Hx. injection Hx as <-. now split.
  - rewrite list_lookup_insert_ne by assumption. exists nx. now split.
Qed.

Lemma leftrotation_runs (m : heap) (a : addr) (l : tree) (k h : Z)
    (b : addr) (rl : tree) (kb hb : Z) (rr : tree) :
  cells_at m (T a l k h (T b rl kb hb rr)) ->
  NoDup (addrs (T a l k h (T b rl kb hb rr))) ->
  exists m',
    leftrotation (Some a) m = Ret (Some b) m'
    /\ cells_at m' (T b (T a l k h rl) kb hb rr)
    /\ relinked m m'
    /\ forall x, x <> a -> x <> b -> m' !! x = m !! x.
Proof.
  intros (Ha & Hl & Hb & Hrl & Hrr) Hnd. cbn [addrs] in Hnd.
  apply NoDup_app in Hnd as (_ & Hdisj & Hnd).
  apply NoDup_cons in Hnd as (Har & Hnd).
  apply NoDup_app in Hnd as (_ & Hdisj' & Hnd).
  apply NoDup_cons in Hnd as (Hbrr & _).
  rewrite not_elem_of_app, not_elem_of_cons in Har.
  destruct Har as (Harl & Hab & Harr).
  assert (Hal : a ∉ addrs l).
  { intros Hin. apply (Hdisj _ Hin). set_solver. }
  assert (Hbl : b ∉ addrs l).
  { intros Hin. apply (Hdisj _ Hin). set_solver. }
  assert (Hbrl : b ∉ addrs rl).
  { intros Hin. apply (Hdisj' _ Hin). set_solver. }
  cbn [root_of] in *.
  set (m1 := <[b := mknode kb (Some a) (root_of rr) hb]> m).
  assert (Ha1 : m1 !! a = Some (mknode k (root_of l) (Some b) h)).
  { unfold m1. rewrite list_lookup_insert_ne by congruence. exact Ha. }
  exists (<[a := mknode k (root_of l) (root_of rl) h]> m1).
  split; [|split; [|split]].
  - unfold leftrotation.
    rewrite (bind_ret _ _ _ _ _ (load_at _ _ _ Ha)). cbn [right].
    rewrite (bind_ret _ _ _ _ _ (load_at _ _ _ Hb)). cbn [left].
    rewrite (bind_ret _ _ _ _ _ (store_at _ _ _ _ Hb)).
    cbn [set_left set_right data left right height]. fold m1.
    rewrite (bind_ret _ _ _ _ _ (store_at _ _ _ _ Ha1)).
    reflexivity.
  - cbn [cells_at root_of]. repeat split.
    + rewrite list_lookup_insert_ne by congruence.
      unfold m1. apply list_lookup_insert_eq. eapply lookup_lt_Some, Hb.
    + apply list_lookup_insert_eq. eapply lookup_lt_Some, Ha1.
    + now do 2 (apply cells_at_frame; [|assumption]).
    + now do 2 (apply cells_at_frame; [|assumption]).
    + now do 2 (apply cells_at_frame; [|assumption]).
  - apply (relinked_trans m m1).
    + unfold m1. eapply relinked_store; [exact Hb|reflexivity|reflexivity].
    + eapply relinked_store; [exact Ha1|reflexivity|reflexivity].
  - intros x Hxa Hxb. unfold m1.
    now rewrite !list_lookup_insert_ne by congruence.
Qed.

Lemma rightrotation_runs (m : heap) (a : addr) (b : addr) (ll : tree)
    (kb hb : Z) (lr : tree) (k h : Z) (r : tree) :
  cells_at m (T a (T b ll kb hb lr) k h r) ->
  NoDup (addrs (T a (T b ll kb hb lr) k h r)) ->
  exists m',
    rightrotation (Some a) m = Ret (Some b) m'
    /\ cells_at m' (T b ll kb hb (T a lr k h r))
    /\ relinked m m'
    /\ forall x, x <> a -> x <> b -> m' !! x = m !! x.
Proof.
  intros (Ha & (Hb & Hll & Hlr) & Hr) Hnd. cbn [addrs] in Hnd.
  apply NoDup_app in Hnd as (Hndl & Hdisj & Hnd).
  apply NoDup_cons in Hnd as (Har & _).
  apply NoDup_app in Hndl as (_ & Hdisj' & Hndl).
  apply NoDup_cons in Hndl as (Hblr & _).
  assert (Hab : a ≠ b).
  { intros ->. apply (Hdisj b); set_solver. }
  assert (Hall : a ∉ addrs ll).
  { intros Hin. apply (Hdisj a); set_solver. }
  assert (Halr : a ∉ addrs lr).
  { intros Hin. apply (Hdisj a); set_solver. }
  assert (Hbll : b ∉ addrs ll).
  { intros Hin. apply (Hdisj' _ Hin). set_solver. }
  assert (Hbr : b ∉ addrs r).
  { intros Hin. apply (Hdisj b); set_solver. }
  cbn [root_of] in *.
  set (m1 := <[b := mknode kb (root_of ll) (Some a) hb]> m).
  assert (Ha1 : m1 !! a = Some (mknode k (Some b) (root_of r) h)).
  { unfold m1. rewrite list_lookup_insert_ne by congruence. exact Ha. }
  exists (<[a := mknode k (root_of lr) (root_of r) h]> m1).
  split; [|split; [|split]].
  - unfold rightrotation.
    rewrite (bind_ret _ _ _ _ _ (load_at _ _ _ Ha)). cbn [left].
    rewrite (bind_ret _ _ _ _ _ (load_at _ _ _ Hb)). cbn [right].
    rewrite (bind_ret _ _ _ _ _ (store_at _ _ _ _ Hb)).
    cbn [set_left set_right data left right height]. fold m1.
    rewrite (bind_ret _ _ _ _ _ (store_at _ _ _ _ Ha1)).
    reflexivity.
  - cbn [cells_at root_of]. repeat split.
    + rewrite list_lookup_insert_ne by congruence.
      unfold m1. apply list_lookup_insert_eq. eapply lookup_lt_Some, Hb.
    + now do 2 (apply cells_at_frame; [|assumption]).
    + apply list_lookup_insert_eq. eapply lookup_lt_Some, Ha1.
    + now do 2 (apply cells_at_frame; [|assumption]).
    + now do 2 (apply cells_at_frame; [|assumption]).
  - apply (relinked_trans m m1).
    + unfold m1. eapply relinked_store; [exact Hb|reflexivity|reflexivity].
    + eapply relinked_store; [exact Ha1|reflexivity|reflexivity].
  - intros x Hxa Hxb. unfold m1.
    now rewrite !list_lookup_insert_ne by congruence.
Qed.

Lemma depth_rotate_left (t : tree) : (depth (rotate_left t) <= S (depth t))%nat.
Proof. destruct t as [|a l k h [|b rl kb hb rr]]; cbn; lia. Qed.

Lemma depth_rotate_right (t : tree) : (depth (rotate_right t) <= S (depth t))%nat.
Proof. destruct t as [|a [|b ll kb hb lr] k h r]; cbn; lia. Qed.

(** C7: on a tree whose root has a right child, [leftrotation] returns a
    tree made of the same blocks in the same order, hence with the same
    keys in order; it allocates nothing and leaves every key and every
    height field as it was: only links change.  [rightrotation] does the
    same on a tree whose root has a left child. *)
Theorem rotations_relink (m : heap) (p : ptr) (t : tree) :
  tree_at m p t ->
  (has_right t ->
   exists m',
     leftrotation p m = Ret (root_of (rotate_left t)) m'
     /\ tree_at m' (root_of (rotate_left t)) (rotate_left t)
     /\ keys (rotate_left t) = keys t
     /\ addrs (rotate_left t) = addrs t
     /\ relinked m m'
     /\ forall fuel, (S (depth t) < fuel)%nat ->
          inorder fuel p m = Ret (keys t) m
          /\ inorder fuel (root_of (rotate_left t)) m' = Ret (keys t) m')
  /\ (has_left t ->
      exists m',
        rightrotation p m = Ret (root_of (rotate_right t)) m'
        /\ tree_at m' (root_of (rotate_right t)) (rotate_right t)
        /\ keys (rotate_right t) = keys t
        /\ addrs (rotate_right t) = addrs t
        /\ relinked m m'
        /\ forall fuel, (S (depth t) < fuel)%nat ->
             inorder fuel p m = Ret (keys t) m
             /\ inorder fuel (root_of (rotate_right t)) m' = Ret (keys t) m').
Proof.
  intros (-> & Hc & Hnd). split.
  - destruct t as [|a l k h [|b rl kb hb rr]]; try contradiction. intros _.
    destruct (leftrotation_runs _ _ _ _ _ _ _ _ _ _ Hc Hnd) as (m' & Hrun & Hc' & Hrel & _).
    assert (Hk : keys (rotate_left (T a l k h (T b rl kb hb rr)))
                 = keys (T a l k h (T b rl kb hb rr))).
    { cbn. now rewrite <- app_assoc. }
    assert (Ha : addrs (rotate_left (T a l k h (T b rl kb hb rr)))
                 = addrs (T a l k h (T b rl kb hb rr))).
    { cbn. now rewrite <- app_assoc. }
    exists m'. split; [exact Hrun|]. split; [|split; [exact Hk|split; [exact Ha|split; [exact Hrel|]]]].
    + split; [reflexivity|]. split; [exact Hc'|]. now rewrite Ha.
    + intros fuel Hfuel. split.
      * apply inorder_runs; [assumption|lia].
      * rewrite <- Hk. apply inorder_runs; [exact Hc'|].
        pose proof (depth_rotate_left (T a l k h (T b rl kb hb rr))). lia.
  - destruct t as [|a [|b ll kb hb lr] k h r]; try contradiction. intros _.
    destruct (rightrotation_runs _ _ _ _ _ _ _ _ _ _ Hc Hnd) as (m' & Hrun & Hc' & Hrel & _).
    assert (Hk : keys (rotate_right (T a (T b ll kb hb lr) k h r))
                 = keys (T a (T b ll kb hb lr) k h r)).
    { cbn. now rewrite <- app_assoc. }
    assert (Ha : addrs (rotate_right (T a (T b ll kb hb lr) k h r))
                 = addrs (T a (T b ll kb hb lr) k h r)).
    { cbn. now rewrite <- app_assoc. }
    exists m'. split; [exact Hrun|]. split; [|split; [exact Hk|split; [exact Ha|split; [exact Hrel|]]]].
    + split; [reflexivity|]. split; [exact Hc'|]. now rewrite Ha.
    + intros fuel Hfuel. split.
      * apply inorder_runs; [assumption|lia].
      * rewrite <- Hk. apply inorder_runs; [exact Hc'|].
        pose proof (depth_rotate_right (T a (T b ll kb hb lr) k h r)). lia.
Qed.

Lemma rotations_relink_witness :
  (exists m',
     leftrotation (Some 0%nat) heap_213 = Ret (Some 2%nat) m'
     /\ tree_at m' (Some 2%nat) (rotate_left tree_213)
     /\ relinked heap_213 m')
  /\ (exists m',
        rightrotation (Some 0%nat) heap_213 = Ret (Some 1%nat) m'
        /\ tree_at m' (Some 1%nat) (rotate_right tree_213)
        /\ relinked heap_213 m').
Proof.
  destruct (rotations_relink heap_213 (Some 0%nat) tree_213) as [HL HR].
  - tree_at_here.
  - split.
    + destruct (HL I) as (m' & H1 & H2 & _ & _ & H3 & _). exists m'. auto.
    + destruct (HR I) as (m' & H1 & H2 & _ & _ & H3 & _). exists m'. auto.
Defined.

(** ** Heights and the order of the first two steps of [balance] *)

Lemma int_result_run (z : Z) (m : heap) :
  int_result z m = if in_int z then Ret z m else Undefined.
Proof. unfold int_result. now destruct (in_int z). Qed.

Lemma bind_run {A B} (c : M A) (k : A -> M B) (m : heap) :
  bind c k m
  = match c m with
    | Ret v m' => k v m'
    | Undefined => Undefined
    | OutOfFuel => OutOfFuel
    end.
Proof. reflexivity. Qed.

Lemma balancingfactor_at (m : heap) (a : addr) (l : tree) (k h : Z) (r : tree) :
  cells_at m (T a l k h r) ->
  balancingfactor (Some a) m
  = int_result (stored_height l - stored_height r) m.
Proof.
  intros (Ha & Hl & Hr). unfold balancingfactor.
  rewrite (bind_ret _ _ _ _ _ (load_at _ _ _ Ha)). cbn [left right].
  rewrite (bind_ret _ _ _ _ _ (getheight_at _ _ Hl)).
  now rewrite (bind_ret _ _ _ _ _ (getheight_at _ _ Hr)).
Qed.

Lemma updateheight_at (m : heap) (a : addr) (l : tree) (k h : Z) (r : tree) :
  cells_at m (T a l k h r) ->
  updateheight (Some a) m
  = match int_result (max (stored_height l) (stored_height r) + 1) m with
    | Ret h' _ => Ret h' (<[a := mknode k (root_of l) (root_of r) h']> m)
    | Undefined => Undefined
    | OutOfFuel => OutOfFuel
    end.
Proof.
  intros (Ha & Hl & Hr). unfold updateheight.
  rewrite (bind_ret _ _ _ _ _ (load_at _ _ _ Ha)). cbn [left right].
  rewrite (bind_ret _ _ _ _ _ (getheight_at _ _ Hl)).
  rewrite (bind_ret _ _ _ _ _ (getheight_at _ _ Hr)).
  rewrite bind_run, int_result_run.
  destruct (in_int _); [|reflexivity].
  rewrite (bind_ret _ _ _ _ _ (store_at _ _ _ _ Ha)).
  cbn [set_height data left right].
  assert (Hlt : (a < length m)%nat) by (eapply lookup_lt_Some, Ha).
  rewrite (bind_ret _ _ _ _ _
             (load_at _ _ _ (list_lookup_insert_eq m a _ Hlt))).
  reflexivity.
Qed.

Lemma cells_at_set_height (m : heap) (a : addr) (l : tree) (k h h' : Z) (r : tree) :
  cells_at m (T a l k h r) -> a ∉ addrs l -> a ∉ addrs r ->
  cells_at (<[a := mknode k (root_of l) (root_of r) h']> m) (T a l k h' r).
Proof.
  intros (Ha & Hl & Hr) Hal Har. cbn [cells_at]. repeat split.
  - apply list_lookup_insert_eq. eapply lookup_lt_Some, Ha.
  - now apply cells_at_frame.
  - now apply cells_at_frame.
Qed.

(** C9: on the root of a tree, [balance] and the variant that refreshes
    the height of the root before reading its balance factor have the
    same outcome: the same root returned and the same heap left, or both
    undefined. *)
Theorem balance_order_irrelevant (m : heap) (a : addr) (t : tree) :
  tree_at m (Some a) t ->
  balance (Some a) m = balance_height_first (Some a) m.
Proof.
  intros (Hroot & Hc & Hnd).
  destruct t as [|a' l k h r]; [discriminate|].
  cbn in Hroot. injection Hroot as <-.
  cbn [addrs] in Hnd. apply NoDup_app in Hnd as (_ & Hdisj & Hnd).
  apply NoDup_cons in Hnd as (Har & _).
  assert (Hal : a ∉ addrs l).
  { intros Hin. apply (Hdisj _ Hin), elem_of_cons. now left. }
  unfold balance, balance_height_first.
  rewrite !bind_run.
  rewrite (balancingfactor_at _ _ _ _ _ _ Hc), (updateheight_at _ _ _ _ _ _ Hc).
  rewrite !int_result_run.
  assert (Hc' : forall h', cells_at (<[a := mknode k (root_of l) (root_of r) h']> m)
                             (T a l k h' r)).
  { intros h'. now apply (cells_at_set_height m a l k h h' r). }
  destruct (in_int (stored_height l - stored_height r)) eqn:Hbf,
           (in_int (max (stored_height l) (stored_height r) + 1)) eqn:Hup.
  - rewrite !bind_run, (updateheight_at _ _ _ _ _ _ Hc), int_result_run, Hup.
    now rewrite (balancingfactor_at _ _ _ _ _ _ (Hc' _)), int_result_run, Hbf.
  - now rewrite bind_run, (updateheight_at _ _ _ _ _ _ Hc), int_result_run, Hup.
  - now rewrite bind_run, (balancingfactor_at _ _ _ _ _ _ (Hc' _)),
      int_result_run, Hbf.
  - reflexivity.
Qed.

Lemma balance_order_irrelevant_witness :
  balance (Some 0%nat) heap_132 = balance_height_first (Some 0%nat) heap_132.
Proof. apply (balance_order_irrelevant heap_132 0%nat tree_132). tree_at_here. Defined.

(** The tree shape matters: on a block that is its own left child the two
    orders of the first two steps leave different heaps. *)
Lemma balance_order_matters_on_cycle :
  balance (Some 0%nat) heap_self <> balance_height_first (Some 0%nat) heap_self.
Proof. vm_compute. discriminate. Qed.

(** ** The composite rotations *)

Lemma elem_addrs_T (x a : addr) (l : tree) (k h : Z) (r : tree) :
  x ∈ addrs (T a l k h r) <-> x = a \/ x ∈ addrs l \/ x ∈ addrs r.
Proof. cbn. rewrite elem_of_app, elem_of_cons. tauto. Qed.

Lemma NoDup_T (a : addr) (l : tree) (k h : Z) (r : tree) :
  NoDup (addrs (T a l k h r)) <->
  NoDup (addrs l) /\ NoDup (addrs r) /\ (a ∉ addrs l) /\ (a ∉ addrs r)
  /\ (forall x, x ∈ addrs l -> x ∉ addrs r).
Proof.
  cbn [addrs]. rewrite NoDup_app, NoDup_cons. split.
  - intros (Hl & Hdisj & Har & Hr). repeat split; auto.
    + intros Hin. apply (Hdisj _ Hin), elem_of_cons. now left.
    + intros x Hx Hin. apply (Hdisj _ Hx), elem_of_cons. now right.
  - intros (Hl & Hr & Hal & Har & Hdisj). repeat split; auto.
    intros x Hx Hin. apply elem_of_cons in Hin as [->|Hin]; [auto|].
    now apply (Hdisj x).
Qed.

Lemma cells_at_node (m : heap) (a : addr) (l : tree) (k h : Z) (r : tree) :
  m !! a = Some (mknode k (root_of l) (root_of r) h) ->
  cells_at m l -> cells_at m r -> cells_at m (T a l k h r).
Proof. cbn. auto. Qed.

Lemma rightleftrotation_runs (m : heap) (a : addr) (l : tree) (k h : Z)
    (b c : addr) (cl : tree) (kc hc : Z) (cr : tree) (kb hb : Z) (rr : tree) :
  cells_at m (T a l k h (T b (T c cl kc hc cr) kb hb rr)) ->
  NoDup (addrs (T a l k h (T b (T c cl kc hc cr) kb hb rr))) ->
  exists m',
    rightleftrotation (Some a) m = Ret (Some c) m'
    /\ cells_at m' (T c (T a l k h cl) kc hc (T b cr kb hb rr))
    /\ relinked m m'.
Proof.
  intros (Ha & Hl & Hsub) Hnd.
  apply NoDup_T in Hnd as (Hndl & Hndr & Hal & Har & Hdisj).
  destruct (rightrotation_runs _ _ _ _ _ _ _ _ _ _ Hsub Hndr)
    as (m1 & Hrun1 & Hc1 & Hrel1 & Hfr1).
  assert (Hb_in : b ∈ addrs (T b (T c cl kc hc cr) kb hb rr)).
  { rewrite !elem_addrs_T. tauto. }
  assert (Hc_in : c ∈ addrs (T b (T c cl kc hc cr) kb hb rr)).
  { rewrite !elem_addrs_T. tauto. }
  assert (Hab : a <> b) by (intros ->; contradiction).
  assert (Hac : a <> c) by (intros ->; contradiction).
  assert (Ha1 : m1 !! a = Some (mknode k (root_of l) (Some b) h)).
  { rewrite Hfr1 by assumption. exact Ha. }
  set (m2 := <[a := mknode k (root_of l) (Some c) h]> m1).
  assert (Hc2 : cells_at m2 (T a l k h (T c cl kc hc (T b cr kb hb rr)))).
  { apply cells_at_node.
    - apply list_lookup_insert_eq. eapply lookup_lt_Some, Ha1.
    - apply cells_at_frame; [|assumption]. apply (cells_at_ext m); [|assumption].
      intros x Hx. apply Hfr1; intros ->; now apply (Hdisj _ Hx).
    - apply cells_at_frame; [exact Hc1|].
      intros Hin. apply Har. rewrite !elem_addrs_T in *. tauto. }
  assert (Hnd2 : NoDup (addrs (T a l k h (T c cl kc hc (T b cr kb hb rr))))).
  { apply NoDup_T. cbn [addrs] in *.
    rewrite <- !app_assoc in Hndr, Har, Hdisj. cbn in Hndr, Har, Hdisj.
    auto 6. }
  destruct (leftrotation_runs _ _ _ _ _ _ _ _ _ _ Hc2 Hnd2)
    as (m3 & Hrun3 & Hc3 & Hrel3 & _).
  exists m3. split; [|split].
  - unfold rightleftrotation.
    rewrite (bind_ret _ _ _ _ _ (load_at _ _ _ Ha)). cbn [right].
    rewrite (bind_ret _ _ _ _ _ Hrun1).
    rewrite (bind_ret _ _ _ _ _ (store_at _ _ _ _ Ha1)).
    cbn [set_right data left height]. exact Hrun3.
  - exact Hc3.
  - apply (relinked_trans m m1); [assumption|].
    apply (relinked_trans m1 m2); [|assumption].
    eapply relinked_store; [exact Ha1|reflexivity|reflexivity].
Qed.

Lemma leftrightrotation_runs (m : heap) (a : addr) (b c : addr) (ll : tree)
    (kb hb : Z) (cl : tree) (kc hc : Z) (cr : tree) (k h : Z) (r : tree) :
  cells_at m (T a (T b ll kb hb (T c cl kc hc cr)) k h r) ->
  NoDup (addrs (T a (T b ll kb hb (T c cl kc hc cr)) k h r)) ->
  exists m',
    leftrightrotation (Some a) m = Ret (Some c) m'
    /\ cells_at m' (T c (T b ll kb hb cl) kc hc (T a cr k h r))
    /\ relinked m m'.
Proof.
  intros (Ha & Hsub & Hr) Hnd.
  apply NoDup_T in Hnd as (Hndl & Hndr & Hal & Har & Hdisj).
  destruct (leftrotation_runs _ _ _ _ _ _ _ _ _ _ Hsub Hndl)
    as (m1 & Hrun1 & Hc1 & Hrel1 & Hfr1).
  assert (Hb_in : b ∈ addrs (T b ll kb hb (T c cl kc hc cr))).
  { rewrite !elem_addrs_T. tauto. }
  assert (Hc_in : c ∈ addrs (T b ll kb hb (T c cl kc hc cr))).
  { rewrite !elem_addrs_T. tauto. }
  assert (Hab : a <> b) by (intros ->; contradiction).
  assert (Hac : a <> c) by (intros ->; contradiction).
  assert (Ha1 : m1 !! a = Some (mknode k (Some b) (root_of r) h)).
  { rewrite Hfr1 by assumption. exact Ha. }
  set (m2 := <[a := mknode k (Some c) (root_of r) h]> m1).
  assert (Hc2 : cells_at m2 (T a (T c (T b ll kb hb cl) kc hc cr) k h r)).
  { apply cells_at_node.
    - apply list_lookup_insert_eq. eapply lookup_lt_Some, Ha1.
    - apply cells_at_frame; [exact Hc1|].
      intros Hin. apply Hal. rewrite !elem_addrs_T in *. tauto.
    - apply cells_at_frame; [|assumption]. apply (cells_at_ext m); [|assumption].
      intros x Hx. apply Hfr1; intros ->.
      + now apply (Hdisj b).
      + now apply (Hdisj c). }
  assert (Hnd2 : NoDup (addrs (T a (T c (T b ll kb hb cl) kc hc cr) k h r))).
  { apply NoDup_T. cbn [addrs] in *.
    rewrite <- !app_assoc. cbn. auto 6. }
  destruct (rightrotation_runs _ _ _ _ _ _ _ _ _ _ Hc2 Hnd2)
    as (m3 & Hrun3 & Hc3 & Hrel3 & _).
  exists m3. split; [|split].
  - unfold leftrightrotation.
    rewrite (bind_ret _ _ _ _ _ (load_at _ _ _ Ha)). cbn [left].
    rewrite (bind_ret _ _ _ _ _ Hrun1).
    rewrite (bind_ret _ _ _ _ _ (store_at _ _ _ _ Ha1)).
    cbn [set_left data right height]. exact Hrun3.
  - exact Hc3.
  - apply (relinked_trans m m1); [assumption|].
    apply (relinked_trans m1 m2); [|assumption].
    eapply relinked_store; [exact Ha1|reflexivity|reflexivity].
Qed.

Lemma insert_only_links_leaf_witness :
  exists m',
    insert zero_fill 3 (Some 0%nat) 3 heap_213 = Ret (Some 0%nat) m'
    /\ one_link heap_213 m' (length heap_213) 3 (leaf_of zero_fill heap_213 3)
         tree_213
    /\ (forall (x : addr) (n : node),
          heap_213 !! x = Some n ->
          exists n', m' !! x = Some n'
                     /\ data n' = data n /\ height n' = height n)
    /\ tree_at m' (Some 0%nat)
         (attach (length heap_213)
            (height (zero_fill (length heap_213))) 3 tree_213).
Proof.
  apply (insert_only_links_leaf zero_fill heap_213 0%nat tree_213 3 3).
  - tree_at_here.
  - cbn. lia.
Defined.

(** ** Where the program departs from the specification *)

(** C1: [insert] does not call [balance].  On the one-node tree that
    [createnode] leaves in zeroed memory, inserting 2 leaves the height
    field of the root as it was, where descending, attaching and then
    balancing sets it to 1; on the chain 1, 2, 3 with accurate heights,
    inserting 4 returns the old root 1 over a chain of four, where
    balancing every ancestor on the unwind rotates and returns 2. *)
Theorem insert_never_balances :
  insert zero_fill 2 (Some 0%nat) 2 [mknode 1 None None 0]
  = Ret (Some 0%nat) [mknode 1 None (Some 1%nat) 0; mknode 2 None None 0]
  /\ insert_spec zero_fill 2 (Some 0%nat) 2 [mknode 1 None None 0]
     = Ret (Some 0%nat) [mknode 1 None (Some 1%nat) 1; mknode 2 None None 0]
  /\ insert zero_fill 4 (Some 0%nat) 4 heap_123
     = Ret (Some 0%nat)
           [mknode 1 None (Some 1%nat) 3; mknode 2 None (Some 2%nat) 2;
            mknode 3 None (Some 3%nat) 1; mknode 4 None None 0]
  /\ insert_spec zero_fill 4 (Some 0%nat) 4 heap_123
     = Ret (Some 1%nat)
           [mknode 1 None None 3; mknode 2 (Some 0%nat) (Some 2%nat) 2;
            mknode 3 None (Some 3%nat) 1; mknode 4 None None 0].
Proof. repeat split; reflexivity. Qed.

(** C2: whatever the fresh blocks hold, inserting 1, 2, 3 with [insert]
    leaves the chain 1, 2, 3: the right subtree of the root has height 2
    and the left one height 0.  The loop of [main], which also calls
    [balance] on the root after each insertion, leaves the same chain in
    zeroed memory.  Read on the height fields instead, the condition fails
    after inserting 1, 2 when the fresh blocks hold 7. *)
Theorem insert_sequence_unbalanced :
  (forall uninit : addr -> node,
     exists (t : tree) (m : heap),
       insert_all uninit 3 None [1; 2; 3] [] = Ret (root_of t) m
       /\ tree_at m (root_of t) t
       /\ ~ balanced t)
  /\ (exists (t : tree) (m : heap),
        main_loop zero_fill 3 None [1; 2; 3] [] = Ret (root_of t) m
        /\ tree_at m (root_of t) t
        /\ ~ balanced t)
  /\ (exists (t : tree) (m : heap),
        insert_all (junk_fill 7) 3 None [1; 2] [] = Ret (root_of t) m
        /\ tree_at m (root_of t) t
        /\ ~ balanced_fields t).
Proof.
  split; [|split].
  - intros uninit.
    exists (T 0 E 1 (height (uninit 0%nat))
              (T 1 E 2 (height (uninit 1%nat))
                 (T 2 E 3 (height (uninit 2%nat)) E))).
    eexists. split; [reflexivity|]. split; [tree_at_here|].
    cbn. lia.
  - exists (right_chain 0 1 [1; 2; 3]).
    eexists. split; [reflexivity|]. split; [tree_at_here|].
    cbn. lia.
  - exists (T 0 E 1 7 (T 1 E 2 7 E)).
    eexists. split; [reflexivity|]. split; [tree_at_here|].
    cbn. lia.
Qed.

(** C4: whatever the fresh blocks hold, the height fields are wrong after
    inserting 1 or after inserting 1 and then 2: the first needs the
    garbage in block 0 to be 1, the second needs it to be 2.  In zeroed
    memory the leaf that [insert] makes of key 1 has height field 0. *)
Theorem insert_leaves_heights_stale :
  (forall uninit : addr -> node,
     exists (ks : list Z) (t : tree) (m : heap),
       (ks = [1] \/ ks = [1; 2])
       /\ insert_all uninit 3 None ks [] = Ret (root_of t) m
       /\ tree_at m (root_of t) t
       /\ ~ heights_ok t /\ ~ heights_real t)
  /\ insert zero_fill 1 None 1 [] = Ret (Some 0%nat) [mknode 1 None None 0].
Proof.
  split; [|reflexivity]. intros uninit.
  destruct (decide (height (uninit 0%nat) = 1)) as [H1|H1].
  - exists [1; 2], (T 0 E 1 (height (uninit 0%nat))
                      (T 1 E 2 (height (uninit 1%nat)) E)).
    eexists. split; [now right|]. split; [reflexivity|].
    split; [tree_at_here|]. cbn. lia.
  - exists [1], (T 0 E 1 (height (uninit 0%nat)) E).
    eexists. split; [now left|]. split; [reflexivity|].
    split; [tree_at_here|]. cbn. lia.
Qed.

(** C5: in zeroed memory [main] prints 1 2 3 4 5 but no rotation takes
    place: the root is still the first block, the tree is the chain 1, 2,
    3, 4, 5 of height 5, and the height field of the root holds 1. *)
Theorem main_leaves_a_chain :
  exists m : heap,
    main zero_fill 6 [] = Ret (Some 0%nat, [1; 2; 3; 4; 5]) m
    /\ tree_at m (Some 0%nat) (right_chain 0 1 [1; 2; 3; 4; 5])
    /\ depth (right_chain 0 1 [1; 2; 3; 4; 5]) = 5%nat
    /\ getheight (Some 0%nat) m = Ret 1 m
    /\ ~ balanced (right_chain 0 1 [1; 2; 3; 4; 5]).
Proof.
  eexists. split; [reflexivity|]. split; [tree_at_here|].
  split; [reflexivity|]. split; [reflexivity|]. cbn. lia.
Qed.

(** C6: inserting 1, 3, 2 from the empty tree, with [balance] on the root
    after each insertion as [main] does, rotates nothing in zeroed
    memory: the root is still the first block, with key 1 and no left
    child, over the chain 1, 3, 2; [main] itself on the array 1, 3, 2
    leaves the same tree.  [insert] alone leaves that chain whatever the
    fresh blocks hold.  The tree with root 2 over 1 and 3 is reached,
    through a left-right rotation, when the fresh blocks happen to hold the
    heights 0, 2 and 1. *)
Theorem insert_132_never_rotates :
  (exists (m : heap) (n : node),
     main_loop zero_fill 3 None [1; 3; 2] [] = Ret (Some 0%nat) m
     /\ tree_at m (Some 0%nat) (T 0 E 1 1 (T 1 (T 2 E 2 0 E) 3 0 E))
     /\ m !! 0%nat = Some n
     /\ data n = 1 /\ data n <> 2 /\ left n = None)
  /\ (exists m : heap,
        main_on zero_fill 4 1 [3; 2] [] = Ret (Some 0%nat, [1; 2; 3]) m
        /\ tree_at m (Some 0%nat) (T 0 E 1 1 (T 1 (T 2 E 2 0 E) 3 0 E)))
  /\ (forall uninit : addr -> node,
        insert_all uninit 3 None [1; 3; 2] []
        = Ret (Some 0%nat)
              [mknode 1 None (Some 1%nat) (height (uninit 0%nat));
               mknode 3 (Some 2%nat) None (height (uninit 1%nat));
               mknode 2 None None (height (uninit 2%nat))])
  /\ (exists m : heap,
        main_loop heights_021 3 None [1; 3; 2] [] = Ret (Some 2%nat) m
        /\ tree_at m (Some 2%nat) (T 2 (T 0 E 1 3 E) 2 1 (T 1 E 3 4 E))).
Proof.
  split; [|split; [|split]].
  - do 2 eexists. split; [reflexivity|]. split; [tree_at_here|].
    split; [reflexivity|]. cbn. repeat split; lia.
  - eexists. split; [reflexivity|tree_at_here].
  - reflexivity.
  - eexists. split; [reflexivity|tree_at_here].
Qed.

(** C8: [createnode] sets the key and both links and leaves the height
    field as [malloc] handed it out; [getheight] on the new node returns
    that garbage, 7 when the block held 7.  [main] reads it through
    [balance]: when the fresh blocks hold -5 the first [balance] takes the
    root for left-heavy and [rightrotation] dereferences its NULL left
    link. *)
Theorem fresh_height_is_garbage :
  (forall (uninit : addr -> node) (d : Z) (m : heap),
     (let! p := createnode uninit d in getheight p) m
     = Ret (height (uninit (length m)))
           (m ++ [mknode d None None (height (uninit (length m)))]))
  /\ (let! p := createnode (junk_fill 7) 2 in getheight p) []
     = Ret 7 [mknode 2 None None 7]
  /\ main (junk_fill (-5)) 6 [] = Undefined.
Proof.
  split; [|split; reflexivity].
  intros uninit d m.
  rewrite (bind_ret _ _ _ _ _ (createnode_runs uninit d m)).
  unfold getheight.
  now rewrite (bind_ret _ _ _ _ _
                 (load_at _ _ _ (list_lookup_middle m [] _ _ eq_refl))).
Qed.

(** ** Reading never writes *)

Lemma load_keeps_heap (p : ptr) (m m' : heap) (n : node) :
  load p m = Ret n m' -> m' = m.
Proof.
  unfold load. destruct p as [a|]; [|discriminate].
  destruct (m !! a); [|discriminate]. now intros [= _ <-].
Qed.

Lemma getheight_keeps_heap (p : ptr) (m m' : heap) (v : Z) :
  getheight p m = Ret v m' -> m' = m.
Proof.
  unfold getheight. destruct p as [a|].
  - rewrite bind_run. destruct (load (Some a) m) as [n m1| |] eqn:Hl;
      [|discriminate|discriminate].
    apply load_keeps_heap in Hl as ->. now intros [= _ <-].
  - now intros [= _ <-].
Qed.

Lemma int_result_keeps_heap (z v : Z) (m m' : heap) :
  int_result z m = Ret v m' -> m' = m.
Proof.
  rewrite int_result_run. destruct (in_int z); [|discriminate].
  now intros [= _ <-].
Qed.

Lemma balancingfactor_keeps_heap_aux (p : ptr) (m m' : heap) (v : Z) :
  balancingfactor p m = Ret v m' -> m' = m.
Proof.
  unfold balancingfactor. destruct p as [a|]; [|now intros [= _ <-]].
  rewrite bind_run. destruct (load (Some a) m) as [n m1| |] eqn:Hl;
    [|discriminate|discriminate].
  apply load_keeps_heap in Hl as ->.
  rewrite bind_run. destruct (getheight (left n) m) as [hl m1| |] eqn:H1;
    [|discriminate|discriminate].
  apply getheight_keeps_heap in H1 as ->.
  rewrite bind_run. destruct (getheight (right n) m) as [hr m1| |] eqn:H2;
    [|discriminate|discriminate].
  apply getheight_keeps_heap in H2 as ->.
  apply int_result_keeps_heap.
Qed.

(** X1: [inorder] is read-only on every heap, tree or not: when it
    returns, the heap is the one it was given. *)
Theorem inorder_keeps_heap (fuel : nat) (p : ptr) (m m' : heap) (out : list Z) :
  inorder fuel p m = Ret out m' -> m' = m.
Proof.
  revert p m m' out.
  induction fuel as [|fuel IH]; intros p m m' out; [discriminate|].
  cbn [inorder]. destruct p as [a|]; [|now intros [= _ <-]].
  rewrite bind_run. destruct (load (Some a) m) as [n m1| |] eqn:Hl;
    [|discriminate|discriminate].
  apply load_keeps_heap in Hl as ->.
  rewrite bind_run. destruct (inorder fuel (left n) m) as [ls m1| |] eqn:H1;
    [|discriminate|discriminate].
  apply IH in H1 as ->.
  rewrite bind_run. destruct (load (Some a) m) as [n' m1| |] eqn:Hl';
    [|discriminate|discriminate].
  apply load_keeps_heap in Hl' as ->.
  rewrite bind_run. destruct (inorder fuel (right n') m) as [rs m1| |] eqn:H2;
    [|discriminate|discriminate].
  apply IH in H2 as ->. now intros [= _ <-].
Qed.

Lemma inorder_keeps_heap_witness :
  inorder 3 (Some 0%nat) heap_213 = Ret [1; 2; 3] heap_213
  /\ heap_213 = heap_213.
Proof.
  split; [reflexivity|].
  apply (inorder_keeps_heap 3 (Some 0%nat) heap_213 heap_213 [1; 2; 3]).
  reflexivity.
Defined.

Lemma getheight_outcome (p : ptr) (m : heap) :
  getheight p m = Undefined \/ exists v, getheight p m = Ret v m.
Proof.
  destruct (getheight p m) as [v m'| |] eqn:H.
  - right. exists v. now rewrite (getheight_keeps_heap _ _ _ _ H).
  - now left.
  - unfold getheight in H. destruct p as [a|]; [|discriminate].
    rewrite bind_run in H. unfold load in H. now destruct (m !! a).
Qed.

Lemma balancingfactor_outcome (p : ptr) (m : heap) :
  balancingfactor p m = Undefined \/ exists v, balancingfactor p m = Ret v m.
Proof.
  destruct (balancingfactor p m) as [v m'| |] eqn:H.
  - right. exists v. now rewrite (balancingfactor_keeps_heap_aux _ _ _ _ H).
  - now left.
  - exfalso. unfold balancingfactor in H. destruct p as [a|]; [|discriminate].
    rewrite bind_run in H. unfold load in H.
    destruct (m !! a) as [n|]; [|discriminate].
    rewrite bind_run in H.
    destruct (getheight_outcome (left n) m) as [Hl|(hl & Hl)];
      rewrite Hl in H; [discriminate|].
    rewrite bind_run in H.
    destruct (getheight_outcome (right n) m) as [Hr|(hr & Hr)];
      rewrite Hr in H; [discriminate|].
    rewrite int_result_run in H. now destruct (in_int _).
Qed.

(** X2: [getheight] and [balancingfactor] are read-only on every heap:
    each of them either is undefined or returns a value and the heap it
    was given.  For the NULL pointer both return 0, and on an allocated
    node [getheight] returns the height field. *)
Theorem height_readers_keep_heap (p : ptr) (m : heap) :
  (getheight p m = Undefined \/ exists v, getheight p m = Ret v m)
  /\ (balancingfactor p m = Undefined
      \/ exists v, balancingfactor p m = Ret v m)
  /\ getheight None m = Ret 0 m
  /\ balancingfactor None m = Ret 0 m
  /\ (forall (a : addr) (n : node),
        m !! a = Some n -> getheight (Some a) m = Ret (height n) m).
Proof.
  split; [apply getheight_outcome|].
  split; [apply balancingfactor_outcome|].
  split; [reflexivity|]. split; [reflexivity|].
  intros a n Ha. unfold getheight.
  now rewrite (bind_ret _ _ _ _ _ (load_at _ _ _ Ha)).
Qed.

Lemma height_readers_keep_heap_witness :
  getheight (Some 0%nat) heap_213 = Ret 2 heap_213
  /\ (balancingfactor (Some 0%nat) heap_213 = Undefined
      \/ exists v, balancingfactor (Some 0%nat) heap_213 = Ret v heap_213).
Proof.
  destruct (height_readers_keep_heap (Some 0%nat) heap_213)
    as (_ & Hbf & _ & _ & Hnode).
  split; [apply (Hnode 0%nat (mknode 2 (Some 1%nat) (Some 2%nat) 2) eq_refl)|].
  exact Hbf.
Defined.

(** X3: on a tree in the heap, [inorder] prints the keys from left to
    right, one per block, and leaves the heap as it is; on the empty tree
    it prints nothing. *)
Theorem inorder_prints_keys (m : heap) (p : ptr) (t : tree) (fuel : nat) :
  tree_at m p t ->
  (depth t < fuel)%nat ->
  inorder fuel p m = Ret (keys t) m
  /\ length (keys t) = length (addrs t)
  /\ (p = None -> keys t = []).
Proof.
  intros (-> & Hc & _) Hfuel. split; [now apply inorder_runs|].
  split; [apply length_keys_addrs|].
  destruct t; [reflexivity|discriminate].
Qed.

Lemma inorder_prints_keys_witness :
  inorder 3 (Some 0%nat) heap_213 = Ret [1; 2; 3] heap_213
  /\ length (keys tree_213) = length (addrs tree_213)
  /\ (Some 0%nat = None -> keys tree_213 = []).
Proof.
  apply (inorder_prints_keys heap_213 (Some 0%nat) tree_213 3).
  - tree_at_here.
  - cbn. lia.
Defined.

(** ** [updateheight] *)

Lemma max_Zmax (a b : Z) : max a b = Z.max a b.
Proof. unfold max. destruct (a >? b) eqn:H; lia. Qed.

(** X4: on the root of a tree, [updateheight] stores one more than the
    larger of the two children's height fields (1 for a leaf) in the
    height field of the root, returns it and writes nothing else; doing it
    again changes nothing.  When that number is not an [int] the call is
    undefined. *)
Theorem updateheight_refreshes (m : heap) (a : addr) (l : tree) (k h : Z)
    (r : tree) :
  tree_at m (Some a) (T a l k h r) ->
  (in_int (1 + Z.max (stored_height l) (stored_height r)) = true ->
   exists m',
     updateheight (Some a) m
     = Ret (1 + Z.max (stored_height l) (stored_height r)) m'
     /\ tree_at m' (Some a)
          (T a l k (1 + Z.max (stored_height l) (stored_height r)) r)
     /\ (forall x, x <> a -> m' !! x = m !! x)
     /\ updateheight (Some a) m'
        = Ret (1 + Z.max (stored_height l) (stored_height r)) m')
  /\ (in_int (1 + Z.max (stored_height l) (stored_height r)) = false ->
      updateheight (Some a) m = Undefined).
Proof.
  intros (_ & Hc & Hnd).
  pose proof Hnd as Hnd0.
  apply NoDup_T in Hnd as (_ & _ & Hal & Har & _).
  rewrite (updateheight_at _ _ _ _ _ _ Hc), int_result_run, max_Zmax.
  replace (Z.max (stored_height l) (stored_height r) + 1)
    with (1 + Z.max (stored_height l) (stored_height r)) by lia.
  set (h' := 1 + Z.max (stored_height l) (stored_height r)).
  split; intros Hin; rewrite Hin; [|reflexivity].
  pose proof (cells_at_set_height m a l k h h' r Hc Hal Har) as Hc'.
  eexists. split; [reflexivity|]. split; [now split|]. split.
  - intros x Hx. now rewrite list_lookup_insert_ne by congruence.
  - rewrite (updateheight_at _ _ _ _ _ _ Hc'), int_result_run, max_Zmax.
    replace (Z.max (stored_height l) (stored_height r) + 1) with h'
      by (unfold h'; lia).
    rewrite Hin. now rewrite list_insert_insert_eq.
Qed.

Lemma updateheight_refreshes_witness :
  (in_int (1 + Z.max 1 1) = true ->
   exists m',
     updateheight (Some 0%nat) heap_213 = Ret (1 + Z.max 1 1) m'
     /\ tree_at m' (Some 0%nat) (T 0 (T 1 E 1 1 E) 2 (1 + Z.max 1 1) (T 2 E 3 1 E))
     /\ (forall x, x <> 0%nat -> m' !! x = heap_213 !! x)
     /\ updateheight (Some 0%nat) m' = Ret (1 + Z.max 1 1) m')
  /\ (in_int (1 + Z.max 1 1) = false ->
      updateheight (Some 0%nat) heap_213 = Undefined).
Proof.
  apply (updateheight_refreshes heap_213 0%nat (T 1 E 1 1 E) 2 2 (T 2 E 3 1 E)).
  tree_at_here.
Defined.

(** ** Missing nodes *)

(** X5: of the functions that take a node pointer, [getheight],
    [balancingfactor], [inorder] and [insert] accept NULL: they return 0,
    return 0, print nothing, and return the new node.  [updateheight],
    [balance] and the four rotations are undefined on NULL, in every heap.
    A left rotation, alone or as the second half of the right-left
    rotation, is undefined on a node without right child, and a right
    rotation, alone or as the second half of the left-right rotation, on
    a node without left child. *)
Theorem missing_node_is_undefined (uninit : addr -> node) (m : heap)
    (fuel : nat) (d : Z) :
  (getheight None m = Ret 0 m
   /\ balancingfactor None m = Ret 0 m
   /\ inorder (S fuel) None m = Ret [] m
   /\ insert uninit (S fuel) None d m
      = Ret (Some (length m))
            (m ++ [mknode d None None (height (uninit (length m)))]))
  /\ (updateheight None m = Undefined /\ balance None m = Undefined
      /\ leftrotation None m = Undefined /\ rightrotation None m = Undefined
      /\ leftrightrotation None m = Undefined
      /\ rightleftrotation None m = Undefined)
  /\ (forall (a : addr) (n : node),
        m !! a = Some n -> right n = None ->
        leftrotation (Some a) m = Undefined
        /\ rightleftrotation (Some a) m = Undefined)
  /\ (forall (a : addr) (n : node),
        m !! a = Some n -> left n = None ->
        rightrotation (Some a) m = Undefined
        /\ leftrightrotation (Some a) m = Undefined).
Proof.
  split; [|split; [repeat split|split]].
  - repeat split. cbn [insert]. apply createnode_runs.
  - intros a n Ha Hnone. unfold rightleftrotation, leftrotation.
    rewrite !(bind_ret _ _ _ _ _ (load_at _ _ _ Ha)), Hnone. now split.
  - intros a n Ha Hnone. unfold leftrightrotation, rightrotation.
    rewrite !(bind_ret _ _ _ _ _ (load_at _ _ _ Ha)), Hnone. now split.
Qed.

Lemma missing_node_is_undefined_witness :
  balance None [] = Undefined
  /\ leftrotation (Some 1%nat) heap_213 = Undefined
  /\ rightrotation (Some 1%nat) heap_213 = Undefined.
Proof.
  split.
  - apply (missing_node_is_undefined zero_fill [] 0 0).
  - destruct (missing_node_is_undefined zero_fill heap_213 0 0)
      as (_ & _ & HL & HR).
    split.
    + apply (HL 1%nat (mknode 1 None None 1) eq_refl eq_refl).
    + apply (HR 1%nat (mknode 1 None None 1) eq_refl eq_refl).
Defined.

(** ** Rotations undo each other *)

Lemma heap_eq_by_cells (m m' : heap) (a b : addr) :
  m' !! a = m !! a -> m' !! b = m !! b ->
  (forall x, x <> a -> x <> b -> m' !! x = m !! x) ->
  m' = m.
Proof.
  intros Ha Hb Hfr. apply list_eq. intros x.
  destruct (decide (x = a)) as [->|Hxa]; [assumption|].
  destruct (decide (x = b)) as [->|Hxb]; [assumption|]. now apply Hfr.
Qed.

(** X6: a right rotation undoes a left rotation and a left rotation
    undoes a right rotation: on a tree whose root has the needed child,
    the two calls in sequence return the root they started from and
    leave the heap exactly as it was. *)
Theorem rotation_round_trip (m : heap) (p : ptr) (t : tree) :
  tree_at m p t ->
  (has_right t ->
   (let! q := leftrotation p in rightrotation q) m = Ret p m)
  /\ (has_left t ->
      (let! q := rightrotation p in leftrotation q) m = Ret p m).
Proof.
  intros (-> & Hc & Hnd). split.
  - destruct t as [|a l k h [|b rl kb hb rr]]; try contradiction. intros _.
    destruct (leftrotation_runs _ _ _ _ _ _ _ _ _ _ Hc Hnd)
      as (m1 & Hrun1 & Hc1 & _ & Hfr1).
    assert (Hnd1 : NoDup (addrs (T b (T a l k h rl) kb hb rr))).
    { cbn [addrs] in *. now rewrite <- app_assoc. }
    destruct (rightrotation_runs _ _ _ _ _ _ _ _ _ _ Hc1 Hnd1)
      as (m2 & Hrun2 & Hc2 & _ & Hfr2).
    cbn [root_of]. rewrite (bind_ret _ _ _ _ _ Hrun1), Hrun2.
    f_equal. apply (heap_eq_by_cells m m2 a b).
    + destruct Hc as (Ha & _). destruct Hc2 as (Ha2 & _). congruence.
    + destruct Hc as (_ & _ & Hb & _). destruct Hc2 as (_ & _ & Hb2 & _).
      congruence.
    + intros x Hxa Hxb. rewrite Hfr2 by assumption. now apply Hfr1.
  - destruct t as [|a [|b ll kb hb lr] k h r]; try contradiction. intros _.
    destruct (rightrotation_runs _ _ _ _ _ _ _ _ _ _ Hc Hnd)
      as (m1 & Hrun1 & Hc1 & _ & Hfr1).
    assert (Hnd1 : NoDup (addrs (T b ll kb hb (T a lr k h r)))).
    { cbn [addrs] in *. now rewrite <- app_assoc in Hnd. }
    destruct (leftrotation_runs _ _ _ _ _ _ _ _ _ _ Hc1 Hnd1)
      as (m2 & Hrun2 & Hc2 & _ & Hfr2).
    cbn [root_of]. rewrite (bind_ret _ _ _ _ _ Hrun1), Hrun2.
    f_equal. apply (heap_eq_by_cells m m2 a b).
    + destruct Hc as (Ha & _). destruct Hc2 as (Ha2 & _). congruence.
    + destruct Hc as (_ & (Hb & _) & _). destruct Hc2 as (_ & (Hb2 & _) & _).
      congruence.
    + intros x Hxa Hxb. rewrite Hfr2 by congruence. now apply Hfr1.
Qed.

Lemma rotation_round_trip_witness :
  (let! q := leftrotation (Some 0%nat) in rightrotation q) heap_213
  = Ret (Some 0%nat) heap_213
  /\ (let! q := rightrotation (Some 0%nat) in leftrotation q) heap_213
     = Ret (Some 0%nat) heap_213.
Proof.
  destruct (rotation_round_trip heap_213 (Some 0%nat) tree_213) as [HL HR].
  - tree_at_here.
  - split; [apply (HL I)|apply (HR I)].
Defined.

(** ** Rotations and the search-tree order *)

Lemma bst_rotate_right (t : tree) : bst t -> bst (rotate_right t).
Proof.
  destruct t as [|a [|b ll kb hb lr] k h r]; cbn; try tauto.
  rewrite !Forall_app, !Forall_cons.
  intros ((Hll & Hlr & Hlt & Hge) & Hr & (Hllk & Hkb & Hlrk) & Hrk).
  repeat split; auto.
  - lia.
  - eapply Forall_impl; [exact Hrk|]. cbn. intros x Hx. lia.
Qed.

Lemma bst_rotate_left_iff (a : addr) (l : tree) (k h : Z) (b : addr)
    (rl : tree) (kb hb : Z) (rr : tree) :
  bst (T a l k h (T b rl kb hb rr)) ->
  bst (rotate_left (T a l k h (T b rl kb hb rr))) <-> k < kb.
Proof.
  cbn. rewrite !Forall_app, !Forall_cons.
  intros (Hl & (Hrl & Hrr & Hlt & Hge) & Hlk & (Hrlk & Hkkb & Hrrk)). split.
  - intros (_ & _ & (_ & Hk & _) & _). exact Hk.
  - intros Hk. repeat split; auto.
    eapply Forall_impl; [exact Hlk|]. cbn. intros x Hx. lia.
Qed.

(** X7: a right rotation keeps the search-tree order (smaller keys to the
    left, other keys to the right) on every tree. *)
Theorem rightrotation_keeps_order (m : heap) (p : ptr) (t : tree) :
  tree_at m p t -> bst t -> has_left t ->
  exists m',
    rightrotation p m = Ret (root_of (rotate_right t)) m'
    /\ tree_at m' (root_of (rotate_right t)) (rotate_right t)
    /\ bst (rotate_right t).
Proof.
  intros (-> & Hc & Hnd) Hbst Hleft.
  pose proof (bst_rotate_right t Hbst) as Hbst'.
  destruct t as [|a [|b ll kb hb lr] k h r]; try contradiction.
  destruct (rightrotation_runs _ _ _ _ _ _ _ _ _ _ Hc Hnd)
    as (m' & Hrun & Hc' & _).
  exists m'. split; [exact Hrun|]. split; [|exact Hbst'].
  split; [reflexivity|]. split; [exact Hc'|].
  cbn [rotate_right addrs] in *. now rewrite <- app_assoc in Hnd.
Qed.

Lemma rightrotation_keeps_order_witness :
  exists m',
    rightrotation (Some 0%nat) heap_213 = Ret (root_of (rotate_right tree_213)) m'
    /\ tree_at m' (root_of (rotate_right tree_213)) (rotate_right tree_213)
    /\ bst (rotate_right tree_213).
Proof.
  apply (rightrotation_keeps_order heap_213 (Some 0%nat) tree_213).
  - tree_at_here.
  - cbn. repeat split; repeat constructor; lia.
  - exact I.
Defined.

(** X8: a left rotation keeps that order exactly when the key of the
    root differs from the key of its right child.  When the two keys are
    equal (a duplicate, which [insert] sends to the right) the rotation
    leaves the equal key in the left subtree of the new root. *)
Theorem leftrotation_order_iff (m : heap) (p : ptr) (t : tree) :
  tree_at m p t -> bst t -> has_right t ->
  exists m',
    leftrotation p m = Ret (root_of (rotate_left t)) m'
    /\ tree_at m' (root_of (rotate_left t)) (rotate_left t)
    /\ (bst (rotate_left t) <-> root_key t <> root_key (right_sub t)).
Proof.
  intros (-> & Hc & Hnd) Hbst Hright.
  destruct t as [|a l k h [|b rl kb hb rr]]; try contradiction.
  destruct (leftrotation_runs _ _ _ _ _ _ _ _ _ _ Hc Hnd)
    as (m' & Hrun & Hc' & _).
  exists m'. split; [exact Hrun|]. split.
  - split; [reflexivity|]. split; [exact Hc'|].
    cbn [rotate_left addrs] in *. now rewrite <- app_assoc.
  - rewrite (bst_rotate_left_iff _ _ _ _ _ _ _ _ _ Hbst). cbn [root_key right_sub].
    assert (Hle : k <= kb).
    { cbn in Hbst. destruct Hbst as (_ & _ & _ & Hge).
      apply Forall_app in Hge as (_ & Hge). now apply Forall_cons in Hge as (Hge & _). }
    split; [intros Hlt [= Heq]; lia|intros Hne].
    destruct (decide (k = kb)) as [->|Hk]; [now contradiction Hne|lia].
Qed.

Lemma leftrotation_order_iff_witness :
  exists m',
    leftrotation (Some 0%nat)
      [mknode 1 None (Some 1%nat) 2; mknode 1 None None 1]
    = Ret (Some 1%nat) m'
    /\ tree_at m' (Some 1%nat) (T 1 (T 0 E 1 2 E) 1 1 E)
    /\ (bst (T 1 (T 0 E 1 2 E) 1 1 E) <-> Some 1 <> Some 1).
Proof.
  apply (leftrotation_order_iff
           [mknode 1 None (Some 1%nat) 2; mknode 1 None None 1]
           (Some 0%nat) (T 0 E 1 2 (T 1 E 1 1 E))).
  - tree_at_here.
  - cbn. repeat split; repeat constructor; lia.
  - exact I.
Defined.

(** ** Where [insert] puts the key *)

Lemma filter_all (P : Z -> Prop) `{!forall x, Decision (P x)} (l : list Z) :
  Forall P l -> filter P l = l.
Proof.
  induction 1 as [|x l Hx _ IH]; [reflexivity|].
  rewrite filter_cons_True by assumption. now rewrite IH.
Qed.

Lemma filter_none (P : Z -> Prop) `{!forall x, Decision (P x)} (l : list Z) :
  Forall (fun x => ~ P x) l -> filter P l = [].
Proof.
  induction 1 as [|x l Hx _ IH]; [reflexivity|].
  now rewrite filter_cons_False by assumption.
Qed.

Lemma keys_attach_filter (new : addr) (hn d : Z) (t : tree) :
  bst t ->
  keys (attach new hn d t)
  = filter (fun x => x <= d) (keys t) ++ d :: filter (fun x => d < x) (keys t).
Proof.
  induction t as [|a l IHl k h r IHr]; [reflexivity|].
  intros (Hl & Hr & Hlt & Hge). cbn [attach keys].
  rewrite !filter_app.
  destruct (d <? k) eqn:Hd; cbn [keys].
  - rewrite (IHl Hl).
    rewrite (filter_none (fun x => x <= d) (k :: keys r)).
    2:{ apply Forall_cons. split; [lia|].
        eapply Forall_impl; [exact Hge|]. cbn. intros x Hx. lia. }
    rewrite (filter_all (fun x => d < x) (k :: keys r)).
    2:{ apply Forall_cons. split; [lia|].
        eapply Forall_impl; [exact Hge|]. cbn. intros x Hx. lia. }
    rewrite app_nil_r. now rewrite <- app_assoc.
  - rewrite (IHr Hr).
    rewrite (filter_all (fun x => x <= d) (keys l)).
    2:{ eapply Forall_impl; [exact Hlt|]. cbn. intros x Hx. lia. }
    rewrite (filter_none (fun x => d < x) (keys l)).
    2:{ eapply Forall_impl; [exact Hlt|]. cbn. intros x Hx. lia. }
    rewrite filter_cons_True by lia.
    rewrite filter_cons_False by lia.
    cbn. now rewrite <- app_assoc.
Qed.

(** X9: on a search tree, empty or not, [insert] returns a search tree
    whose keys in order are those of the old tree with the new key put
    after every key not larger than it (so after the keys equal to it)
    and before every larger key. *)
Theorem insert_places_key (uninit : addr -> node) (m : heap) (p : ptr)
    (t : tree) (d : Z) (fuel : nat) :
  tree_at m p t -> bst t -> (depth t < fuel)%nat ->
  exists (t' : tree) (m' : heap),
    insert uninit fuel p d m = Ret (root_of t') m'
    /\ tree_at m' (root_of t') t'
    /\ bst t'
    /\ keys t'
       = filter (fun x => x <= d) (keys t) ++ d :: filter (fun x => d < x) (keys t).
Proof.
  intros (-> & Hc & Hnd) Hbst Hfuel.
  destruct (insert_runs uninit t fuel m d Hc Hnd Hfuel)
    as (m' & Hrun & _ & Hc' & _).
  exists (attach (length m) (height (uninit (length m))) d t), m'.
  split; [exact Hrun|]. split; [|split].
  - split; [reflexivity|]. split; [exact Hc'|].
    apply NoDup_attach; [assumption|]. now apply tree_at_fresh.
  - now apply bst_attach.
  - now apply keys_attach_filter.
Qed.

Lemma insert_places_key_witness :
  exists (t' : tree) (m' : heap),
    insert zero_fill 3 (Some 0%nat) 2 heap_213 = Ret (root_of t') m'
    /\ tree_at m' (root_of t') t'
    /\ bst t'
    /\ keys t'
       = filter (fun x => x <= 2) (keys tree_213)
         ++ 2 :: filter (fun x => 2 < x) (keys tree_213).
Proof.
  apply (insert_places_key zero_fill heap_213 (Some 0%nat) tree_213 2 3).
  - tree_at_here.
  - cbn. repeat split; repeat constructor; lia.
  - cbn. lia.
Defined.

(** ** [balance] on trees *)

Lemma relinked_length (m m' : heap) : relinked m m' -> length m' = length m.
Proof. now intros (H & _). Qed.

Lemma balance_runs (m : heap) (a : addr) (l : tree) (k h : Z) (r : tree) :
  cells_at m (T a l k h r) -> NoDup (addrs (T a l k h r)) ->
  match balance_tree (T a l k h r) with
  | Some t' =>
      exists m',
        balance (Some a) m = Ret (root_of t') m'
        /\ cells_at m' t' /\ length m' = length m
  | None => balance (Some a) m = Undefined
  end.
Proof.
  intros Hc Hnd. pose proof Hnd as Hnd0.
  apply NoDup_T in Hnd as (_ & _ & Hal & Har & _).
  unfold balance. cbn [balance_tree].
  rewrite bind_run, (balancingfactor_at _ _ _ _ _ _ Hc), int_result_run.
  set (bf := stored_height l - stored_height r).
  set (h' := max (stored_height l) (stored_height r) + 1).
  destruct (in_int bf) eqn:Hbf; cbn [andb]; [|reflexivity].
  rewrite bind_run, (updateheight_at _ _ _ _ _ _ Hc), int_result_run.
  fold h'. destruct (in_int h') eqn:Hup; [|reflexivity].
  set (m1 := <[a := mknode k (root_of l) (root_of r) h']> m).
  assert (Hc1 : cells_at m1 (T a l k h' r)).
  { now apply (cells_at_set_height m a l k h h' r). }
  assert (Hlen1 : length m1 = length m) by apply length_insert.
  pose proof Hc1 as (Ha1 & Hl1 & Hr1).
  destruct (bf >? 1) eqn:Hgt; [|destruct (bf <? -1) eqn:Hlt].
  - rewrite (bind_ret _ _ _ _ _ (load_at _ _ _ Ha1)). cbn [left].
    destruct l as [|b ll kb hb lr].
    + cbn [root_of balancingfactor]. unfold ret at 1. rewrite bind_run.
      change (0 <? 0) with false. cbv iota. unfold rightrotation.
      now rewrite (bind_ret _ _ _ _ _ (load_at _ _ _ Ha1)).
    + cbn [root_of] in *. rewrite bind_run.
      rewrite (balancingfactor_at _ _ _ _ _ _ Hl1), int_result_run.
      destruct (in_int (stored_height ll - stored_height lr)); [|reflexivity].
      destruct (stored_height ll - stored_height lr <? 0).
      * destruct lr as [|c cl kc hc cr].
        -- unfold leftrightrotation, leftrotation.
           rewrite (bind_ret _ _ _ _ _ (load_at _ _ _ Ha1)). cbn [left].
           destruct Hl1 as (Hb1 & _).
           rewrite bind_run, (bind_ret _ _ _ _ _ (load_at _ _ _ Hb1)).
           reflexivity.
        -- destruct (leftrightrotation_runs _ _ _ _ _ _ _ _ _ _ _ _ _ _ Hc1 Hnd0)
             as (m' & Hrun & Hc' & Hrel).
           exists m'. split; [exact Hrun|]. split; [exact Hc'|].
           rewrite (relinked_length _ _ Hrel). exact Hlen1.
      * destruct (rightrotation_runs _ _ _ _ _ _ _ _ _ _ Hc1 Hnd0)
          as (m' & Hrun & Hc' & Hrel & _).
        exists m'. split; [exact Hrun|]. split; [exact Hc'|].
        rewrite (relinked_length _ _ Hrel). exact Hlen1.
  - rewrite (bind_ret _ _ _ _ _ (load_at _ _ _ Ha1)). cbn [right].
    destruct r as [|b rl kb hb rr].
    + cbn [root_of balancingfactor]. unfold ret at 1. rewrite bind_run.
      change (0 >? 0) with false. cbv iota. unfold leftrotation.
      now rewrite (bind_ret _ _ _ _ _ (load_at _ _ _ Ha1)).
    + cbn [root_of] in *. rewrite bind_run.
      rewrite (balancingfactor_at _ _ _ _ _ _ Hr1), int_result_run.
      destruct (in_int (stored_height rl - stored_height rr)); [|reflexivity].
      destruct (stored_height rl - stored_height rr >? 0).
      * destruct rl as [|c cl kc hc cr].
        -- unfold rightleftrotation, rightrotation.
           rewrite (bind_ret _ _ _ _ _ (load_at _ _ _ Ha1)). cbn [right].
           destruct Hr1 as (Hb1 & _).
           rewrite bind_run, (bind_ret _ _ _ _ _ (load_at _ _ _ Hb1)).
           reflexivity.
        -- destruct (rightleftrotation_runs _ _ _ _ _ _ _ _ _ _ _ _ _ _ Hc1 Hnd0)
             as (m' & Hrun & Hc' & Hrel).
           exists m'. split; [exact Hrun|]. split; [exact Hc'|].
           rewrite (relinked_length _ _ Hrel). exact Hlen1.
      * destruct (leftrotation_runs _ _ _ _ _ _ _ _ _ _ Hc1 Hnd0)
          as (m' & Hrun & Hc' & Hrel & _).
        exists m'. split; [exact Hrun|]. split; [exact Hc'|].
        rewrite (relinked_length _ _ Hrel). exact Hlen1.
  - exists m1. split; [reflexivity|]. split; [exact Hc1|exact Hlen1].
Qed.

Lemma balance_tree_keys (t t' : tree) :
  balance_tree t = Some t' -> keys t' = keys t /\ addrs t' = addrs t.
Proof.
  destruct t as [|a l k h r]; [discriminate|]. cbn [balance_tree].
  destruct (in_int _ && in_int _); [|discriminate].
  destruct (_ >? 1); [|destruct (_ <? -1)].
  - destruct l as [|b ll kb hb lr]; [discriminate|].
    destruct (in_int _); [|discriminate].
    destruct (_ <? 0).
    + destruct lr as [|c cl kc hc cr]; [discriminate|].
      intros [= <-]. cbn.
      split; repeat (rewrite <- app_assoc; cbn); reflexivity.
    + intros [= <-]. cbn.
      split; repeat (rewrite <- app_assoc; cbn); reflexivity.
  - destruct r as [|b rl kb hb rr]; [discriminate|].
    destruct (in_int _); [|discriminate].
    destruct (_ >? 0).
    + destruct rl as [|c cl kc hc cr]; [discriminate|].
      intros [= <-]. cbn.
      split; repeat (rewrite <- app_assoc; cbn); reflexivity.
    + intros [= <-]. cbn.
      split; repeat (rewrite <- app_assoc; cbn); reflexivity.
  - intros [= <-]. now split.
Qed.

Lemma balance_some (m : heap) (a : addr) (t t' : tree) :
  tree_at m (Some a) t -> balance_tree t = Some t' ->
  exists m',
    balance (Some a) m = Ret (root_of t') m'
    /\ tree_at m' (root_of t') t'
    /\ keys t' = keys t /\ addrs t' = addrs t
    /\ length m' = length m.
Proof.
  intros (Hroot & Hc & Hnd) Hbt.
  destruct t as [|a' l k h r]; [discriminate|].
  cbn in Hroot. injection Hroot as <-.
  pose proof (balance_runs m a l k h r Hc Hnd) as Hrun.
  rewrite Hbt in Hrun. destruct Hrun as (m' & Hrun & Hc' & Hlen).
  destruct (balance_tree_keys _ _ Hbt) as (Hk & Ha).
  exists m'. split; [exact Hrun|]. split; [|auto].
  split; [reflexivity|]. split; [exact Hc'|]. now rewrite Ha.
Qed.

Lemma balance_none (m : heap) (a : addr) (t : tree) :
  tree_at m (Some a) t -> balance_tree t = None ->
  balance (Some a) m = Undefined.
Proof.
  intros (Hroot & Hc & Hnd) Hbt.
  destruct t as [|a' l k h r]; [discriminate|].
  cbn in Hroot. injection Hroot as <-.
  pose proof (balance_runs m a l k h r Hc Hnd) as Hrun.
  now rewrite Hbt in Hrun.
Qed.

(** X10: whatever the height fields hold, [balance] on the root of a tree
    is undefined or returns a tree made of the same blocks with the same
    keys in the same order, and allocates nothing. *)
Theorem balance_keeps_keys (m : heap) (a : addr) (t : tree) :
  tree_at m (Some a) t ->
  balance (Some a) m = Undefined
  \/ exists (t' : tree) (m' : heap),
       balance (Some a) m = Ret (root_of t') m'
       /\ tree_at m' (root_of t') t'
       /\ keys t' = keys t /\ addrs t' = addrs t
       /\ length m' = length m.
Proof.
  intros Ht. destruct (balance_tree t) as [t'|] eqn:Hbt.
  - right. exists t'. now apply balance_some.
  - left. now apply (balance_none m a t).
Qed.

Lemma balance_keeps_keys_witness :
  balance (Some 0%nat) heap_132 = Undefined
  \/ exists (t' : tree) (m' : heap),
       balance (Some 0%nat) heap_132 = Ret (root_of t') m'
       /\ tree_at m' (root_of t') t'
       /\ keys t' = keys tree_132 /\ addrs t' = addrs tree_132
       /\ length m' = length heap_132.
Proof. apply (balance_keeps_keys heap_132 0%nat tree_132). tree_at_here. Defined.

Lemma in_int_iff (z : Z) :
  in_int z = true <-> -2147483648 <= z <= 2147483647.
Proof.
  unfold in_int, int_min, int_max.
  rewrite andb_true_iff, !Z.leb_le.
  change (2 ^ 31) with 2147483648. lia.
Qed.

(** X11: when the height fields of the two children differ by at most
    one, [balance] returns the root it was given and only refreshes its
    height field. *)
Theorem balance_keeps_balanced_root (m : heap) (a : addr) (l : tree)
    (k h : Z) (r : tree) :
  tree_at m (Some a) (T a l k h r) ->
  Z.abs (stored_height l - stored_height r) <= 1 ->
  in_int (max (stored_height l) (stored_height r) + 1) = true ->
  balance (Some a) m
  = Ret (Some a)
        (<[a := mknode k (root_of l) (root_of r)
                 (max (stored_height l) (stored_height r) + 1)]> m).
Proof.
  intros (_ & Hc & Hnd) Hbf Hup. unfold balance.
  assert (Hin : in_int (stored_height l - stored_height r) = true).
  { apply in_int_iff. lia. }
  rewrite bind_run, (balancingfactor_at _ _ _ _ _ _ Hc), int_result_run, Hin.
  rewrite bind_run, (updateheight_at _ _ _ _ _ _ Hc), int_result_run, Hup.
  replace (stored_height l - stored_height r >? 1) with false by lia.
  replace (stored_height l - stored_height r <? -1) with false by lia.
  reflexivity.
Qed.

Lemma balance_keeps_balanced_root_witness :
  balance (Some 0%nat) heap_213
  = Ret (Some 0%nat)
        (<[0%nat := mknode 2 (Some 1%nat) (Some 2%nat) (max 1 1 + 1)]> heap_213).
Proof.
  apply (balance_keeps_balanced_root heap_213 0%nat (T 1 E 1 1 E) 2 2 (T 2 E 3 1 E)).
  - tree_at_here.
  - cbn. lia.
  - reflexivity.
Defined.

(** X12: on a root whose left height field exceeds the right one by more
    than one and whose left child is not right-heavy, [balance] refreshes
    the height of the root and rotates it to the right; the mirrored
    case rotates it to the left. *)
Theorem balance_single_rotation (m : heap) (a : addr) (l : tree) (k h : Z)
    (r : tree) :
  tree_at m (Some a) (T a l k h r) ->
  in_int (stored_height l - stored_height r) = true ->
  in_int (max (stored_height l) (stored_height r) + 1) = true ->
  (l <> E ->
   in_int (stored_height (left_sub l) - stored_height (right_sub l)) = true ->
   1 < stored_height l - stored_height r ->
   0 <= stored_height (left_sub l) - stored_height (right_sub l) ->
   exists m',
     balance (Some a) m = Ret (root_of l) m'
     /\ tree_at m' (root_of l)
          (rotate_right
             (T a l k (max (stored_height l) (stored_height r) + 1) r)))
  /\ (r <> E ->
      in_int (stored_height (left_sub r) - stored_height (right_sub r)) = true ->
      stored_height l - stored_height r < -1 ->
      stored_height (left_sub r) - stored_height (right_sub r) <= 0 ->
      exists m',
        balance (Some a) m = Ret (root_of r) m'
        /\ tree_at m' (root_of r)
             (rotate_left
                (T a l k (max (stored_height l) (stored_height r) + 1) r))).
Proof.
  intros Ht Hbf Hup. split.
  - intros Hl Hbl Hheavy Hchild.
    destruct l as [|b ll kb hb lr]; [contradiction|].
    cbn [left_sub right_sub] in *.
    destruct (balance_some m a _
                (T b ll kb hb
                   (T a lr k (max (stored_height (T b ll kb hb lr))
                                  (stored_height r) + 1) r)) Ht)
      as (m' & Hrun & Ht' & _).
    + cbn [balance_tree]. rewrite Hbf, Hup. cbn [andb].
      replace (stored_height (T b ll kb hb lr) - stored_height r >? 1)
        with true by lia.
      rewrite Hbl.
      now replace (stored_height ll - stored_height lr <? 0) with false by lia.
    + exists m'. split; [exact Hrun|exact Ht'].
  - intros Hr Hbr Hheavy Hchild.
    destruct r as [|b rl kb hb rr]; [contradiction|].
    cbn [left_sub right_sub] in *.
    destruct (balance_some m a _
                (T b (T a l k (max (stored_height l)
                                   (stored_height (T b rl kb hb rr)) + 1) rl)
                   kb hb rr) Ht)
      as (m' & Hrun & Ht' & _).
    + cbn [balance_tree]. rewrite Hbf, Hup. cbn [andb].
      replace (stored_height l - stored_height (T b rl kb hb rr) >? 1)
        with false by lia.
      replace (stored_height l - stored_height (T b rl kb hb rr) <? -1)
        with true by lia.
      rewrite Hbr.
      now replace (stored_height rl - stored_height rr >? 0) with false by lia.
    + exists m'. split; [exact Hrun|exact Ht'].
Qed.

Lemma balance_single_rotation_witness :
  (exists m',
     balance (Some 0%nat) heap_321 = Ret (Some 1%nat) m'
     /\ tree_at m' (Some 1%nat) (T 1 (T 2 E 1 1 E) 2 2 (T 0 E 3 3 E)))
  /\ (exists m',
        balance (Some 0%nat) heap_123 = Ret (Some 1%nat) m'
        /\ tree_at m' (Some 1%nat) (T 1 (T 0 E 1 3 E) 2 2 (T 2 E 3 1 E))).
Proof.
  split.
  - destruct (balance_single_rotation heap_321 0%nat
                (T 1 (T 2 E 1 1 E) 2 2 E) 3 3 E) as [HL _];
      [tree_at_here|reflexivity|reflexivity|].
    apply HL; [discriminate|reflexivity|cbn; lia|cbn; lia].
  - destruct (balance_single_rotation heap_123 0%nat
                E 1 3 (T 1 E 2 2 (T 2 E 3 1 E))) as [_ HR];
      [tree_at_here|reflexivity|reflexivity|].
    apply HR; [discriminate|reflexivity|cbn; lia|cbn; lia].
Defined.

(** X13: on a root whose left height field exceeds the right one by more
    than one and whose left child is right-heavy, [balance] refreshes the
    height of the root, rotates the left child to the left and then the
    root to the right; the mirrored case rotates the right child to the
    right and then the root to the left.  The new root is the inner
    grandchild. *)
Theorem balance_double_rotation (m : heap) (a : addr) (l : tree) (k h : Z)
    (r : tree) :
  tree_at m (Some a) (T a l k h r) ->
  in_int (stored_height l - stored_height r) = true ->
  in_int (max (stored_height l) (stored_height r) + 1) = true ->
  (right_sub l <> E ->
   in_int (stored_height (left_sub l) - stored_height (right_sub l)) = true ->
   1 < stored_height l - stored_height r ->
   stored_height (left_sub l) - stored_height (right_sub l) < 0 ->
   exists m',
     balance (Some a) m = Ret (root_of (right_sub l)) m'
     /\ tree_at m' (root_of (right_sub l))
          (rotate_right
             (T a (rotate_left l) k
                (max (stored_height l) (stored_height r) + 1) r)))
  /\ (left_sub r <> E ->
      in_int (stored_height (left_sub r) - stored_height (right_sub r)) = true ->
      stored_height l - stored_height r < -1 ->
      0 < stored_height (left_sub r) - stored_height (right_sub r) ->
      exists m',
        balance (Some a) m = Ret (root_of (left_sub r)) m'
        /\ tree_at m' (root_of (left_sub r))
             (rotate_left
                (T a l k (max (stored_height l) (stored_height r) + 1)
                   (rotate_right r)))).
Proof.
  intros Ht Hbf Hup. split.
  - intros Hl Hbl Hheavy Hchild.
    destruct l as [|b ll kb hb [|c cl kc hc cr]]; try contradiction.
    cbn [left_sub right_sub rotate_left rotate_right] in *.
    destruct (balance_some m a _
                (T c (T b ll kb hb cl) kc hc
                   (T a cr k (max hb (stored_height r) + 1) r)) Ht)
      as (m' & Hrun & Ht' & _).
    + cbn [balance_tree stored_height] in *. rewrite Hbf, Hup. cbn [andb].
      replace (hb - stored_height r >? 1) with true by lia.
      rewrite Hbl.
      now replace (stored_height ll - hc <? 0) with true by lia.
    + exists m'. split; [exact Hrun|exact Ht'].
  - intros Hr Hbr Hheavy Hchild.
    destruct r as [|b [|c cl kc hc cr] kb hb rr]; try contradiction.
    cbn [left_sub right_sub rotate_left rotate_right] in *.
    destruct (balance_some m a _
                (T c (T a l k (max (stored_height l) hb + 1) cl) kc hc
                   (T b cr kb hb rr)) Ht)
      as (m' & Hrun & Ht' & _).
    + cbn [balance_tree stored_height] in *. rewrite Hbf, Hup. cbn [andb].
      replace (stored_height l - hb >? 1) with false by lia.
      replace (stored_height l - hb <? -1) with true by lia.
      rewrite Hbr.
      now replace (hc - stored_height rr >? 0) with true by lia.
    + exists m'. split; [exact Hrun|exact Ht'].
Qed.

Lemma balance_double_rotation_witness :
  (exists m',
     balance (Some 0%nat) heap_312 = Ret (Some 2%nat) m'
     /\ tree_at m' (Some 2%nat) (T 2 (T 1 E 1 2 E) 2 1 (T 0 E 3 3 E)))
  /\ (exists m',
        balance (Some 0%nat) heap_132 = Ret (Some 2%nat) m'
        /\ tree_at m' (Some 2%nat) (T 2 (T 0 E 1 3 E) 2 1 (T 1 E 3 2 E))).
Proof.
  split.
  - destruct (balance_double_rotation heap_312 0%nat
                (T 1 E 1 2 (T 2 E 2 1 E)) 3 3 E) as [HL _];
      [tree_at_here|reflexivity|reflexivity|].
    apply HL; [discriminate|reflexivity|cbn; lia|cbn; lia].
  - destruct (balance_double_rotation heap_132 0%nat
                E 1 1 (T 1 (T 2 E 2 1 E) 3 2 E)) as [_ HR];
      [tree_at_here|reflexivity|reflexivity|].
    apply HR; [discriminate|reflexivity|cbn; lia|cbn; lia].
Defined.

(** X14: [balance] trusts the height fields.  When they call for a
    rotation whose pivot is absent (a left-heavy reading on a root
    without left child, or a right-heavy reading of a left child without
    right child, and the mirrored cases) the call is undefined: a NULL
    pointer is dereferenced. *)
Theorem balance_missing_pivot_undefined (m : heap) (a : addr) (l : tree)
    (k h : Z) (r : tree) :
  tree_at m (Some a) (T a l k h r) ->
  (1 < stored_height l - stored_height r ->
   l = E
   \/ (right_sub l = E
       /\ stored_height (left_sub l) - stored_height (right_sub l) < 0) ->
   balance (Some a) m = Undefined)
  /\ (stored_height l - stored_height r < -1 ->
      r = E
      \/ (left_sub r = E
          /\ 0 < stored_height (left_sub r) - stored_height (right_sub r)) ->
      balance (Some a) m = Undefined).
Proof.
  intros Ht. split; intros Hheavy Hpivot; apply (balance_none m a _ Ht);
    cbn [balance_tree];
    (destruct (in_int (stored_height l - stored_height r)
               && in_int (max (stored_height l) (stored_height r) + 1));
     [|reflexivity]).
  - replace (stored_height l - stored_height r >? 1) with true by lia.
    destruct Hpivot as [->|(Hsub & Hbl)]; [reflexivity|].
    destruct l as [|b ll kb hb lr]; [reflexivity|].
    cbn [left_sub right_sub] in *. subst lr.
    destruct (in_int _); [|reflexivity].
    now replace (stored_height ll - stored_height E <? 0) with true by lia.
  - replace (stored_height l - stored_height r >? 1) with false by lia.
    replace (stored_height l - stored_height r <? -1) with true by lia.
    destruct Hpivot as [->|(Hsub & Hbr)]; [reflexivity|].
    destruct r as [|b rl kb hb rr]; [reflexivity|].
    cbn [left_sub right_sub] in *. subst rl.
    destruct (in_int _); [|reflexivity].
    now replace (stored_height E - stored_height rr >? 0) with true by lia.
Qed.

Lemma balance_missing_pivot_undefined_witness :
  balance (Some 0%nat) [mknode 1 None (Some 1%nat) 0; mknode 2 None None (-5)]
  = Undefined.
Proof.
  destruct (balance_missing_pivot_undefined
              [mknode 1 None (Some 1%nat) 0; mknode 2 None None (-5)]
              0%nat E 1 0 (T 1 E 2 (-5) E)) as [HL _].
  - tree_at_here.
  - apply HL; [cbn; lia|now left].
Defined.

(** ** What [balance] achieves, and what it leaves behind *)

Lemma heights_real_stored (t : tree) :
  heights_real t -> stored_height t = Z.of_nat (depth t).
Proof. destruct t as [|a l k h r]; cbn [heights_real stored_height depth]; [reflexivity|]. intros (H & _). lia. Qed.

Lemma balance_tree_restores (a : addr) (l : tree) (k h : Z) (r : tree) :
  heights_real l -> heights_real r -> balanced l -> balanced r ->
  Z.abs (Z.of_nat (depth l) - Z.of_nat (depth r)) <= 2 ->
  Z.of_nat (depth (T a l k h r)) <= int_max ->
  exists t', balance_tree (T a l k h r) = Some t' /\ balanced t'.
Proof.
  intros Hhl Hhr Hbl Hbr Hdiff Hbound. cbn [balance_tree].
  change int_max with 2147483647 in Hbound.
  rewrite (heights_real_stored l Hhl), (heights_real_stored r Hhr), max_Zmax.
  cbn [depth] in Hbound.
  replace (in_int (Z.of_nat (depth l) - Z.of_nat (depth r))) with true
    by (symmetry; apply in_int_iff; lia).
  replace (in_int (Z.max (Z.of_nat (depth l)) (Z.of_nat (depth r)) + 1)) with true
    by (symmetry; apply in_int_iff; lia).
  cbn [andb].
  destruct (Z.gtb_spec (Z.of_nat (depth l) - Z.of_nat (depth r)) 1) as [Hgt|Hgt];
    [|destruct (Z.ltb_spec (Z.of_nat (depth l) - Z.of_nat (depth r)) (-1))
        as [Hlt|Hlt]].
  - destruct l as [|b ll kb hb lr]; [cbn [depth] in Hgt; lia|].
    destruct Hhl as (_ & Hhll & Hhlr). destruct Hbl as (Hb & Hbll & Hblr).
    rewrite (heights_real_stored ll Hhll), (heights_real_stored lr Hhlr).
    cbn [depth] in Hgt, Hdiff, Hbound.
    replace (in_int (Z.of_nat (depth ll) - Z.of_nat (depth lr))) with true
      by (symmetry; apply in_int_iff; lia).
    destruct (Z.ltb_spec (Z.of_nat (depth ll) - Z.of_nat (depth lr)) 0)
      as [Hzig|Hzig].
    + destruct lr as [|c cl kc hc cr]; [cbn [depth] in Hzig; lia|].
      destruct Hblr as (Hc & Hbcl & Hbcr).
      eexists. split; [reflexivity|].
      cbn [balanced depth] in *. repeat split; auto; lia.
    + eexists. split; [reflexivity|].
      cbn [balanced depth] in *. repeat split; auto; lia.
  - destruct r as [|b rl kb hb rr]; [cbn [depth] in Hlt; lia|].
    destruct Hhr as (_ & Hhrl & Hhrr). destruct Hbr as (Hb & Hbrl & Hbrr).
    rewrite (heights_real_stored rl Hhrl), (heights_real_stored rr Hhrr).
    cbn [depth] in Hgt, Hlt, Hdiff, Hbound.
    replace (in_int (Z.of_nat (depth rl) - Z.of_nat (depth rr))) with true
      by (symmetry; apply in_int_iff; lia).
    destruct (Z.gtb_spec (Z.of_nat (depth rl) - Z.of_nat (depth rr)) 0)
      as [Hzig|Hzig].
    + destruct rl as [|c cl kc hc cr]; [cbn [depth] in Hzig; lia|].
      destruct Hbrl as (Hc & Hbcl & Hbcr).
      eexists. split; [reflexivity|].
      cbn [balanced depth] in *. repeat split; auto; lia.
    + eexists. split; [reflexivity|].
      cbn [balanced depth] in *. repeat split; auto; lia.
  - eexists. split; [reflexivity|].
    cbn [balanced]. repeat split; auto; lia.
Qed.

(** X15: when the height fields of both subtrees are accurate, both
    subtrees are balanced and their heights differ by at most two,
    [balance] is defined and returns a tree, with the same keys in order,
    in which the heights of the two subtrees of every node differ by at
    most one. *)
Theorem balance_restores_avl (m : heap) (a : addr) (l : tree) (k h : Z)
    (r : tree) :
  tree_at m (Some a) (T a l k h r) ->
  heights_real l -> heights_real r -> balanced l -> balanced r ->
  Z.abs (Z.of_nat (depth l) - Z.of_nat (depth r)) <= 2 ->
  Z.of_nat (depth (T a l k h r)) <= int_max ->
  exists (t' : tree) (m' : heap),
    balance (Some a) m = Ret (root_of t') m'
    /\ tree_at m' (root_of t') t'
    /\ balanced t'
    /\ keys t' = keys (T a l k h r).
Proof.
  intros Ht Hhl Hhr Hbl Hbr Hdiff Hbound.
  destruct (balance_tree_restores a l k h r Hhl Hhr Hbl Hbr Hdiff Hbound)
    as (t' & Hbt & Hbal).
  destruct (balance_some m a _ t' Ht Hbt) as (m' & Hrun & Ht' & Hk & _).
  exists t', m'. auto.
Qed.

Lemma balance_restores_avl_witness :
  exists (t' : tree) (m' : heap),
    balance (Some 0%nat) heap_123 = Ret (root_of t') m'
    /\ tree_at m' (root_of t') t'
    /\ balanced t'
    /\ keys t' = keys tree_123.
Proof.
  apply (balance_restores_avl heap_123 0%nat E 1 3 (T 1 E 2 2 (T 2 E 3 1 E))).
  - tree_at_here.
  - exact I.
  - cbn. repeat split; lia.
  - exact I.
  - cbn. repeat split; lia.
  - cbn. lia.
  - vm_compute. discriminate.
Defined.

Lemma balance_tree_stale (a : addr) (l : tree) (k h : Z) (r : tree) (t' : tree) :
  balance_tree (T a l k h r) = Some t' ->
  root_of t' <> Some a ->
  heights_ok l -> heights_ok r ->
  ~ heights_ok t'.
Proof.
  cbn [balance_tree]. rewrite max_Zmax.
  destruct (in_int _ && in_int _); [|discriminate].
  destruct (_ >? 1); [|destruct (_ <? -1)].
  - destruct l as [|b ll kb hb lr]; [discriminate|].
    destruct (in_int _); [|discriminate].
    destruct (_ <? 0).
    + destruct lr as [|c cl kc hc cr]; [discriminate|].
      intros [= <-] _ (Hb & _) _ (Hc & _).
      cbn [stored_height] in *. lia.
    + intros [= <-] _ _ _ (Hb & _). cbn [stored_height] in *. lia.
  - destruct r as [|b rl kb hb rr]; [discriminate|].
    destruct (in_int _); [|discriminate].
    destruct (_ >? 0).
    + destruct rl as [|c cl kc hc cr]; [discriminate|].
      intros [= <-] _ _ (Hb & _) (Hc & _).
      cbn [stored_height] in *. lia.
    + intros [= <-] _ _ _ (Hb & _). cbn [stored_height] in *. lia.
  - intros [= <-] Hroot. now contradiction Hroot.
Qed.

(** X16: the rotations write no height field, and [balance] refreshes
    the height of the old root before it rotates.  So whenever [balance]
    returns a root other than the one it was given, on a tree whose two
    subtrees had consistent height fields, the tree it returns has
    inconsistent ones. *)
Theorem balance_rotation_leaves_stale_heights (m m' : heap) (a : addr)
    (l : tree) (k h : Z) (r : tree) (p : ptr) :
  tree_at m (Some a) (T a l k h r) ->
  heights_ok l -> heights_ok r ->
  balance (Some a) m = Ret p m' ->
  p <> Some a ->
  exists t',
    tree_at m' p t' /\ keys t' = keys (T a l k h r) /\ ~ heights_ok t'.
Proof.
  intros Ht Hl Hr Hrun Hp.
  destruct (balance_tree (T a l k h r)) as [t'|] eqn:Hbt.
  - destruct (balance_some m a _ t' Ht Hbt) as (m'' & Hrun' & Ht' & Hk & _).
    rewrite Hrun in Hrun'. injection Hrun' as -> ->.
    exists t'. split; [exact Ht'|]. split; [exact Hk|].
    now apply (balance_tree_stale a l k h r).
  - rewrite (balance_none m a _ Ht Hbt) in Hrun. discriminate.
Qed.

Lemma balance_rotation_leaves_stale_heights_witness :
  exists t',
    tree_at [mknode 1 None None 3; mknode 2 (Some 0%nat) (Some 2%nat) 2;
             mknode 3 None None 1] (Some 1%nat) t'
    /\ keys t' = keys tree_123 /\ ~ heights_ok t'.
Proof.
  apply (balance_rotation_leaves_stale_heights heap_123 _ 0%nat
           E 1 3 (T 1 E 2 2 (T 2 E 3 1 E)) (Some 1%nat)).
  - tree_at_here.
  - exact I.
  - cbn. repeat split; lia.
  - reflexivity.
  - discriminate.
Defined.

(** ** Sequences of insertions, tree by tree *)

Lemma depth_attach_all (uninit : addr -> node) (ks : list Z) :
  forall (new : addr) (t : tree),
    (depth (attach_all uninit new ks t) <= depth t + length ks)%nat.
Proof.
  induction ks as [|d ks IH]; intros new t; cbn [attach_all length]; [lia|].
  specialize (IH (S new) (attach new (height (uninit new)) d t)).
  pose proof (depth_attach new (height (uninit new)) d t). lia.
Qed.

Lemma insert_all_attach_all (uninit : addr -> node) (ks : list Z) :
  forall (t : tree) (m : heap) (fuel : nat),
    cells_at m t -> NoDup (addrs t) ->
    (depth t + length ks < fuel)%nat ->
    exists m',
      insert_all uninit fuel (root_of t) ks m
      = Ret (root_of (attach_all uninit (length m) ks t)) m'
      /\ cells_at m' (attach_all uninit (length m) ks t)
      /\ NoDup (addrs (attach_all uninit (length m) ks t))
      /\ length m' = (length m + length ks)%nat.
Proof.
  induction ks as [|d ks IH]; intros t m fuel Hc Hnd Hfuel.
  - exists m. cbn. repeat split; auto.
  - cbn [length] in Hfuel. cbn [insert_all attach_all].
    destruct (insert_runs uninit t fuel m d Hc Hnd ltac:(lia))
      as (m1 & Hrun & Hlen & Hc1 & _ & _).
    rewrite (bind_ret _ _ _ _ _ Hrun).
    set (t1 := attach (length m) (height (uninit (length m))) d t) in *.
    assert (Hd1 : (depth t1 <= S (depth t))%nat) by apply depth_attach.
    destruct (IH t1 m1 fuel Hc1) as (m' & Hrun' & Hc' & Hnd' & Hlen').
    + apply NoDup_attach; [assumption|]. now apply tree_at_fresh.
    + lia.
    + rewrite Hlen in *. exists m'. repeat split; auto.
      cbn [length]. lia.
Qed.

Lemma attach_chain (new : addr) (hn d : Z) (t : tree) :
  left_free t -> Forall (fun x => x <= d) (keys t) ->
  left_free (attach new hn d t)
  /\ depth (attach new hn d t) = S (depth t)
  /\ keys (attach new hn d t) = keys t ++ [d].
Proof.
  induction t as [|a l IHl k h r IHr]; cbn [left_free keys attach depth].
  - intros _ _. repeat split.
  - intros (-> & Hr) Hle. cbn [keys app] in Hle.
    apply Forall_cons in Hle as (Hk & Hle).
    replace (d <? k) with false by lia.
    destruct (IHr Hr Hle) as (Hchain & Hdep & Hkeys).
    cbn [left_free depth keys app]. rewrite Hdep, Hkeys.
    repeat split; auto.
Qed.

Lemma attach_all_chain (uninit : addr -> node) (ks : list Z) :
  forall (new : addr) (t : tree),
    left_free t -> StronglySorted Z.le (keys t ++ ks) ->
    left_free (attach_all uninit new ks t)
    /\ depth (attach_all uninit new ks t) = (depth t + length ks)%nat
    /\ keys (attach_all uninit new ks t) = keys t ++ ks.
Proof.
  induction ks as [|d ks IH]; intros new t Hchain Hs; cbn [attach_all length].
  - rewrite app_nil_r. repeat split; auto.
  - assert (Hle : Forall (fun x => x <= d) (keys t)).
    { apply StronglySorted_app in Hs as (Hcross & _ & _).
      apply Forall_forall. intros x Hx. apply Hcross; [assumption|].
      apply elem_of_cons. now left. }
    destruct (attach_chain new (height (uninit new)) d t Hchain Hle)
      as (Hchain1 & Hdep1 & Hkeys1).
    destruct (IH (S new) _ Hchain1) as (Hc' & Hd' & Hk').
    + rewrite Hkeys1, <- app_assoc. exact Hs.
    + rewrite Hd', Hk', Hdep1, Hkeys1, <- app_assoc.
      repeat split; auto; lia.
Qed.

(** X17: [insert] never rebalances.  Whatever the fresh blocks hold,
    inserting a non-decreasing sequence of keys one at a time from the
    empty tree builds a chain down the right, no node having a left
    child, whose height is the number of keys. *)
Theorem insert_sorted_builds_chain (uninit : addr -> node) (ks : list Z)
    (m0 : heap) (fuel : nat) :
  StronglySorted Z.le ks ->
  (length ks < fuel)%nat ->
  exists (t : tree) (m : heap),
    insert_all uninit fuel None ks m0 = Ret (root_of t) m
    /\ tree_at m (root_of t) t
    /\ left_free t
    /\ depth t = length ks
    /\ keys t = ks.
Proof.
  intros Hs Hfuel.
  destruct (insert_all_attach_all uninit ks E m0 fuel I NoDup_nil_2
              ltac:(cbn; lia)) as (m & Hrun & Hc & Hnd & _).
  destruct (attach_all_chain uninit ks (length m0) E I Hs) as (Hch & Hd & Hk).
  eexists _, m. split; [exact Hrun|]. split; [now split|]. auto.
Qed.

Lemma insert_sorted_builds_chain_witness :
  exists (t : tree) (m : heap),
    insert_all zero_fill 4 None [1; 2; 2] [] = Ret (root_of t) m
    /\ tree_at m (root_of t) t
    /\ left_free t
    /\ depth t = length [1; 2; 2]
    /\ keys t = [1; 2; 2].
Proof.
  apply (insert_sorted_builds_chain zero_fill [1; 2; 2] [] 4).
  - repeat constructor; lia.
  - cbn. lia.
Defined.

(** ** The loop of [main] in zeroed memory *)

Lemma attach_flat (new : addr) (d : Z) (t : tree) :
  t <> E ->
  attach new 0 d t <> E
  /\ root_of (attach new 0 d t) = root_of t
  /\ stored_height (left_sub (attach new 0 d t)) = stored_height (left_sub t)
  /\ stored_height (right_sub (attach new 0 d t)) = stored_height (right_sub t).
Proof.
  destruct t as [|a l k h r]; [contradiction|]. intros _.
  cbn [attach]. destruct (d <? k); cbn [root_of left_sub right_sub].
  - repeat split; [discriminate|]. destruct l as [|b ll kb hb lr]; cbn; [reflexivity|].
    now destruct (d <? kb).
  - repeat split; [discriminate|]. destruct r as [|b rl kb hb rr]; cbn; [reflexivity|].
    now destruct (d <? kb).
Qed.

Lemma balance_tree_flat (t : tree) :
  t <> E ->
  stored_height (left_sub t) = 0 -> stored_height (right_sub t) = 0 ->
  balance_tree t = Some (retop 1 t).
Proof.
  destruct t as [|a l k h r]; [contradiction|]. intros _.
  cbn [left_sub right_sub balance_tree retop]. now intros -> ->.
Qed.

Lemma attach_retop (new : addr) (hn d h' : Z) (t : tree) :
  attach new hn d (retop h' t) = retop h' (attach new hn d t) \/ t = E.
Proof.
  destruct t as [|a l k h r]; [now right|]. left.
  cbn. now destruct (d <? k).
Qed.

Lemma attach_all_retop (uninit : addr -> node) (ks : list Z) :
  forall (new : addr) (h' : Z) (t : tree),
    t <> E ->
    attach_all uninit new ks (retop h' t)
    = retop h' (attach_all uninit new ks t).
Proof.
  induction ks as [|d ks IH]; intros new h' t Ht; [reflexivity|].
  cbn [attach_all].
  destruct (attach_retop new (height (uninit new)) d h' t) as [-> | ->];
    [|contradiction].
  apply IH. now destruct t as [|a l k h r]; cbn; [|destruct (d <? k)].
Qed.

Lemma retop_retop (h1 h2 : Z) (t : tree) : retop h1 (retop h2 t) = retop h1 t.
Proof. now destruct t. Qed.

Lemma main_loop_zeroed (ks : list Z) :
  forall (t : tree) (m : heap) (fuel : nat),
    cells_at m t -> NoDup (addrs t) -> t <> E ->
    stored_height (left_sub t) = 0 -> stored_height (right_sub t) = 0 ->
    (depth t + length ks < fuel)%nat ->
    exists m',
      main_loop zero_fill fuel (root_of t) ks m = Ret (root_of t) m'
      /\ cells_at m'
           (match ks with
            | [] => t
            | _ => retop 1 (attach_all zero_fill (length m) ks t)
            end)
      /\ length m' = (length m + length ks)%nat.
Proof.
  induction ks as [|d ks IH]; intros t m fuel Hc Hnd Hne Hl Hr Hfuel.
  - exists m. cbn. repeat split; auto.
  - cbn [length] in Hfuel. cbn [main_loop attach_all].
    destruct (insert_runs zero_fill t fuel m d Hc Hnd ltac:(lia))
      as (m1 & Hrun & Hlen & Hc1 & _ & _).
    rewrite (bind_ret _ _ _ _ _ Hrun).
    change (height (zero_fill (length m))) with 0 in *.
    set (t1 := attach (length m) 0 d t) in *.
    destruct (attach_flat (length m) d t Hne) as (Hne1 & Hroot1 & Hl1 & Hr1).
    fold t1 in Hne1, Hroot1, Hl1, Hr1.
    assert (Hnd1 : NoDup (addrs t1)).
    { apply NoDup_attach; [assumption|]. now apply tree_at_fresh. }
    assert (Hbt : balance_tree t1 = Some (retop 1 t1)).
    { apply balance_tree_flat; congruence. }
    destruct t1 as [|a1 l1 k1 h1 r1] eqn:Et1; [contradiction|].
    destruct (balance_some m1 a1 (T a1 l1 k1 h1 r1) _
                (conj eq_refl (conj Hc1 Hnd1)) Hbt)
      as (m2 & Hrun2 & (_ & Hc2 & Hnd2) & _ & _ & Hlen2).
    cbn [root_of]. rewrite (bind_ret _ _ _ _ _ Hrun2).
    pose proof (depth_attach (length m) 0 d t) as Hd1. fold t1 in Hd1.
    rewrite Et1 in Hd1.
    destruct (IH (retop 1 (T a1 l1 k1 h1 r1)) m2 fuel Hc2 Hnd2)
      as (m' & Hrun' & Hc' & Hlen').
    + discriminate.
    + cbn [retop left_sub] in *. congruence.
    + cbn [retop right_sub] in *. congruence.
    + cbn [retop depth] in *. lia.
    + cbn [retop root_of] in Hrun'. rewrite <- Hroot1. cbn [root_of].
      exists m'. split; [exact Hrun'|]. split; [|cbn [length]; lia].
      rewrite Hlen2, Hlen in Hc'.
      destruct ks as [|d' ks]; [exact Hc'|].
      rewrite attach_all_retop, retop_retop in Hc' by discriminate.
      exact Hc'.
Qed.

(** X18: in zeroed memory the calls of [balance] in [main] never rotate.
    For every array, [main] builds the tree that [insert] alone builds
    from the same keys (the same blocks, keys and links, the same root)
    but for the height field of the root, which holds 1 when the array has
    more than one element, and prints its keys. *)
Theorem main_never_rotates_in_zeroed_memory (d0 : Z) (rest : list Z)
    (fuel : nat) :
  (S (length rest) < fuel)%nat ->
  exists (t : tree) (m_insert m_main : heap),
    insert_all zero_fill fuel None (d0 :: rest) [] = Ret (Some 0%nat) m_insert
    /\ tree_at m_insert (Some 0%nat) t
    /\ main_on zero_fill fuel d0 rest [] = Ret (Some 0%nat, keys t) m_main
    /\ tree_at m_main (Some 0%nat)
         (match rest with [] => t | _ => retop 1 t end).
Proof.
  intros Hfuel.
  set (t0 := T 0 E d0 0 E).
  set (m1 := [mknode d0 None None 0]).
  assert (Hc0 : cells_at m1 t0) by (cbn; auto).
  assert (Hnd0 : NoDup (addrs t0)) by apply NoDup_singleton.
  destruct (insert_all_attach_all zero_fill rest t0 m1 fuel Hc0 Hnd0
              ltac:(cbn; lia)) as (mi & Hruni & Hci & Hndi & _).
  destruct (main_loop_zeroed rest t0 m1 fuel Hc0 Hnd0 ltac:(discriminate)
              eq_refl eq_refl ltac:(cbn; lia)) as (mm & Hrunm & Hcm & _).
  change (length m1) with 1%nat in *.
  set (t := attach_all zero_fill 1%nat rest t0) in *.
  assert (Hroot : root_of t = Some 0%nat).
  { unfold t. clear. generalize 1%nat.
    generalize t0 (eq_refl : root_of t0 = Some 0%nat).
    induction rest as [|d ks IH]; intros t1 H1 n; [exact H1|].
    cbn [attach_all]. apply IH. destruct t1 as [|a l k h r]; [discriminate|].
    cbn. now destruct (d <? k). }
  assert (Hdep : (depth t <= S (length rest))%nat).
  { unfold t. pose proof (depth_attach_all zero_fill rest 1%nat t0) as Hd.
    cbn [depth t0] in Hd. lia. }
  set (h1 := match rest with [] => 0 | _ => 1 end).
  assert (Hcm' : cells_at mm (retop h1 t)).
  { unfold h1. destruct rest; exact Hcm. }
  assert (Hroot' : root_of (retop h1 t) = Some 0%nat).
  { destruct t; [discriminate|exact Hroot]. }
  assert (Hkeys' : keys (retop h1 t) = keys t) by now destruct t.
  assert (Hshape : retop h1 t = match rest with [] => t | _ => retop 1 t end).
  { unfold h1. destruct rest as [|d rest']; [|reflexivity].
    reflexivity. }
  exists t, mi, mm. split; [|split; [|split]].
  - destruct fuel as [|fuel']; [lia|]. cbn [insert_all insert].
    rewrite (bind_ret _ _ _ _ _ (createnode_runs zero_fill d0 [])).
    cbn [app length zero_fill height]. fold m1. rewrite Hroot in Hruni.
    exact Hruni.
  - split; [now rewrite Hroot|]. now split.
  - unfold main_on.
    rewrite (bind_ret _ _ _ _ _ (createnode_runs zero_fill d0 [])).
    cbn [app length zero_fill height]. fold m1.
    change (Some 0%nat) with (root_of t0) at 1.
    rewrite (bind_ret _ _ _ _ _ Hrunm). cbn [root_of t0].
    assert (Hin : inorder fuel (Some 0%nat) mm = Ret (keys t) mm).
    { rewrite <- Hroot', <- Hkeys'. apply inorder_runs; [exact Hcm'|].
      destruct t; cbn [retop depth] in *; lia. }
    now rewrite (bind_ret _ _ _ _ _ Hin).
  - rewrite <- Hshape. split; [now rewrite Hroot'|]. split; [exact Hcm'|].
    now destruct t.
Qed.

Lemma main_never_rotates_in_zeroed_memory_witness :
  exists (t : tree) (m_insert m_main : heap),
    insert_all zero_fill 7 None [1; 2; 3; 4; 5] [] = Ret (Some 0%nat) m_insert
    /\ tree_at m_insert (Some 0%nat) t
    /\ main_on zero_fill 7 1 [2; 3; 4; 5] [] = Ret (Some 0%nat, keys t) m_main
    /\ tree_at m_main (Some 0%nat) (retop 1 t).
Proof.
  apply (main_never_rotates_in_zeroed_memory 1 [2; 3; 4; 5] 7). cbn. lia.
Defined.

(** ** [main] under any garbage *)

Lemma sorted_node (l1 l2 : list Z) (k : Z) :
  StronglySorted Z.le (l1 ++ k :: l2) <->
  StronglySorted Z.le l1 /\ StronglySorted Z.le l2
  /\ Forall (fun x => x <= k) l1 /\ Forall (fun x => k <= x) l2.
Proof.
  rewrite StronglySorted_app, StronglySorted_cons, !Forall_forall. split.
  - intros (Hcross & H1 & Hk & H2). repeat split; auto.
    intros x Hx. apply Hcross; [assumption|]. apply elem_of_cons. now left.
  - intros (H1 & H2 & Hle & Hge). repeat split; auto.
    intros x1 x2 Hx1 Hx2. specialize (Hle _ Hx1).
    apply elem_of_cons in Hx2 as [->|Hx2]; [assumption|].
    specialize (Hge _ Hx2). lia.
Qed.

Lemma attach_sorted (new : addr) (hn d : Z) (t : tree) :
  StronglySorted Z.le (keys t) ->
  StronglySorted Z.le (keys (attach new hn d t)).
Proof.
  induction t as [|a l IHl k h r IHr]; cbn [keys attach].
  - intros _. repeat constructor.
  - rewrite sorted_node. intros (Hl & Hr & Hle & Hge).
    destruct (d <? k) eqn:Hd; cbn [keys]; apply sorted_node.
    + repeat split; auto. apply Forall_keys_attach. split; [lia|assumption].
    + repeat split; auto. apply Forall_keys_attach. split; [lia|assumption].
Qed.

Lemma depth_le_size (t : tree) : (depth t <= length (addrs t))%nat.
Proof.
  induction t as [|a l IHl k h r IHr]; cbn [depth addrs]; [cbn; lia|].
  rewrite length_app. cbn [length]. lia.
Qed.

Lemma length_addrs_attach (new : addr) (hn d : Z) (t : tree) :
  length (addrs (attach new hn d t)) = S (length (addrs t)).
Proof.
  rewrite <- !length_keys_addrs.
  now rewrite (Permutation_length (keys_attach new hn d t)).
Qed.

Lemma main_loop_sorted (uninit : addr -> node) (fuel : nat) (rest : list Z) :
  forall (t : tree) (m : heap),
    cells_at m t -> NoDup (addrs t) -> t <> E ->
    StronglySorted Z.le (keys t) ->
    (length (addrs t) + length rest < fuel)%nat ->
    main_loop uninit fuel (root_of t) rest m = Undefined
    \/ exists (t' : tree) (m' : heap),
         main_loop uninit fuel (root_of t) rest m = Ret (root_of t') m'
         /\ cells_at m' t' /\ NoDup (addrs t')
         /\ StronglySorted Z.le (keys t')
         /\ Permutation (keys t') (rest ++ keys t)
         /\ length (addrs t') = (length (addrs t) + length rest)%nat.
Proof.
  induction rest as [|d rest IH]; intros t m Hc Hnd Hne Hs Hfuel.
  - right. exists t, m. cbn. repeat split; auto.
  - cbn [length] in Hfuel. cbn [main_loop].
    pose proof (depth_le_size t) as Hdep.
    destruct (insert_runs uninit t fuel m d Hc Hnd ltac:(lia))
      as (m1 & Hrun & _ & Hc1 & _ & _).
    rewrite (bind_ret _ _ _ _ _ Hrun).
    set (t1 := attach (length m) (height (uninit (length m))) d t) in *.
    assert (Hnd1 : NoDup (addrs t1)).
    { apply NoDup_attach; [assumption|]. now apply tree_at_fresh. }
    assert (Hs1 : StronglySorted Z.le (keys t1)) by now apply attach_sorted.
    assert (Hsize1 : length (addrs t1) = S (length (addrs t)))
      by apply length_addrs_attach.
    assert (Hk1 : Permutation (keys t1) (d :: keys t)) by apply keys_attach.
    destruct t1 as [|a1 l1 k1 h1 r1] eqn:Et1; [discriminate Hsize1|].
    assert (Ht1 : tree_at m1 (Some a1) (T a1 l1 k1 h1 r1)) by now split.
    cbn [root_of]. rewrite bind_run.
    destruct (balance_tree (T a1 l1 k1 h1 r1)) as [t2|] eqn:Hbt.
    + destruct (balance_some m1 a1 _ t2 Ht1 Hbt)
        as (m2 & Hrun2 & (_ & Hc2 & Hnd2) & Hk2 & Ha2 & _).
      rewrite Hrun2.
      destruct (IH t2 m2 Hc2 Hnd2) as [Hundef|(t' & m' & Hrun' & Hc' & Hnd' & Hs' & Hp' & Hl')].
      * intros ->. apply (f_equal length) in Ha2. rewrite Hsize1 in Ha2.
        discriminate Ha2.
      * now rewrite Hk2.
      * rewrite Ha2, Hsize1. lia.
      * now left.
      * right. exists t', m'. split; [exact Hrun'|]. repeat split; auto.
        -- rewrite Hp', Hk2, Hk1. symmetry. apply Permutation_middle.
        -- rewrite Hl', Ha2, Hsize1. cbn [length]. lia.
    + left. now rewrite (balance_none m1 a1 _ Ht1 Hbt).
Qed.

Lemma main_prints_sorted_or_is_undefined_aux (uninit : addr -> node) (d0 : Z)
    (rest : list Z) (m0 : heap) (fuel : nat) :
  (S (length rest) < fuel)%nat ->
  main_on uninit fuel d0 rest m0 = Undefined
  \/ exists (root : ptr) (out : list Z) (m : heap),
       main_on uninit fuel d0 rest m0 = Ret (root, out) m
       /\ StronglySorted Z.le out
       /\ Permutation out (d0 :: rest).
Proof.
  intros Hfuel. unfold main_on.
  rewrite (bind_ret _ _ _ _ _ (createnode_runs uninit d0 m0)).
  set (lf := mknode d0 None None (height (uninit (length m0)))).
  set (t0 := T (length m0) E d0 (height (uninit (length m0))) E).
  assert (Hc0 : cells_at (m0 ++ [lf]) t0).
  { cbn. split; [now apply list_lookup_middle|auto]. }
  destruct (main_loop_sorted uninit fuel rest t0 (m0 ++ [lf]) Hc0)
    as [Hundef|(t' & m' & Hrun & Hc' & Hnd' & Hs' & Hp' & Hl')].
  - apply NoDup_singleton.
  - discriminate.
  - repeat constructor.
  - cbn. lia.
  - left. change (root_of t0) with (Some (length m0)) in Hundef.
    now rewrite bind_run, Hundef.
  - right. change (root_of t0) with (Some (length m0)) in Hrun.
    rewrite (bind_ret _ _ _ _ _ Hrun).
    assert (Hin : inorder fuel (root_of t') m' = Ret (keys t') m').
    { apply inorder_runs; [assumption|].
      pose proof (depth_le_size t'). cbn in Hl'. lia. }
    rewrite (bind_ret _ _ _ _ _ Hin).
    exists (root_of t'), (keys t'), m'. split; [reflexivity|].
    split; [assumption|]. rewrite Hp'. cbn.
    symmetry. apply Permutation_cons_append.
Qed.

(** X19: whatever the fresh blocks hold and whatever the array, [main]
    either runs into undefined behaviour (a rotation on a missing node,
    or an [int] overflow of a height) or prints the elements of the array
    in non-decreasing order, each as many times as it occurs. *)
Theorem main_prints_sorted_or_is_undefined (uninit : addr -> node) (d0 : Z)
    (rest : list Z) (m0 : heap) (fuel : nat) :
  (S (length rest) < fuel)%nat ->
  main_on uninit fuel d0 rest m0 = Undefined
  \/ exists (root : ptr) (out : list Z) (m : heap),
       main_on uninit fuel d0 rest m0 = Ret (root, out) m
       /\ StronglySorted Z.le out
       /\ Permutation out (d0 :: rest).
Proof. apply main_prints_sorted_or_is_undefined_aux. Qed.

Lemma main_prints_sorted_or_is_undefined_witness :
  main_on (junk_fill 7) 4 3 [1; 2] [] = Undefined
  \/ exists (root : ptr) (out : list Z) (m : heap),
       main_on (junk_fill 7) 4 3 [1; 2] [] = Ret (root, out) m
       /\ StronglySorted Z.le out
       /\ Permutation out [3; 1; 2].
Proof.
  apply (main_prints_sorted_or_is_undefined (junk_fill 7) 3 [1; 2] [] 4).
  cbn. lia.
Defined.

(** The program itself: whatever the fresh blocks hold, it prints
    1 2 3 4 5 or its behaviour is undefined. *)
Lemma main_prints_12345_or_is_undefined (uninit : addr -> node) (fuel : nat) :
  (5 < fuel)%nat ->
  main uninit fuel [] = Undefined
  \/ exists (root : ptr) (m : heap),
       main uninit fuel [] = Ret (root, [1; 2; 3; 4; 5]) m.
Proof.
  intros Hfuel. unfold main. cbn [data_array hd tl].
  destruct (main_prints_sorted_or_is_undefined_aux uninit 1 [2; 3; 4; 5] [] fuel)
    as [Hu|(root & out & m & Hrun & Hs & Hp)]; [cbn; lia|now left|right].
  exists root, m. rewrite Hrun. do 2 f_equal.
  apply (StronglySorted_unique Z.le); [assumption|repeat constructor; lia|assumption].
Qed.

(** ** The composite rotations re-link only *)

(** X21: on a tree whose root has a left child with a right child, the
    left-right rotation returns a tree made of the same blocks in the
    same order, hence with the same keys in order, whose root is that
    grandchild; it allocates nothing and changes no key and no height
    field.  The right-left rotation does the same on the mirrored
    shape. *)
Theorem double_rotations_relink (m : heap) (p : ptr) (t : tree) :
  tree_at m p t ->
  (right_sub (left_sub t) <> E ->
   exists m',
     leftrightrotation p m = Ret (root_of (right_sub (left_sub t))) m'
     /\ tree_at m' (root_of (right_sub (left_sub t))) (rotate_left_right t)
     /\ keys (rotate_left_right t) = keys t
     /\ addrs (rotate_left_right t) = addrs t
     /\ relinked m m')
  /\ (left_sub (right_sub t) <> E ->
      exists m',
        rightleftrotation p m = Ret (root_of (left_sub (right_sub t))) m'
        /\ tree_at m' (root_of (left_sub (right_sub t))) (rotate_right_left t)
        /\ keys (rotate_right_left t) = keys t
        /\ addrs (rotate_right_left t) = addrs t
        /\ relinked m m').
Proof.
  intros (-> & Hc & Hnd). split.
  - destruct t as [|a [|b ll kb hb [|c cl kc hc cr]] k h r];
      cbn [left_sub right_sub]; try contradiction. intros _.
    destruct (leftrightrotation_runs _ _ _ _ _ _ _ _ _ _ _ _ _ _ Hc Hnd)
      as (m' & Hrun & Hc' & Hrel).
    assert (Ha : addrs (rotate_left_right
                          (T a (T b ll kb hb (T c cl kc hc cr)) k h r))
                 = addrs (T a (T b ll kb hb (T c cl kc hc cr)) k h r)).
    { cbn. repeat (rewrite <- app_assoc; cbn). reflexivity. }
    exists m'. split; [exact Hrun|]. split; [|split; [|split; [exact Ha|exact Hrel]]].
    + split; [reflexivity|]. split; [exact Hc'|]. now rewrite Ha.
    + cbn. repeat (rewrite <- app_assoc; cbn). reflexivity.
  - destruct t as [|a l k h [|b [|c cl kc hc cr] kb hb rr]];
      cbn [left_sub right_sub]; try contradiction. intros _.
    destruct (rightleftrotation_runs _ _ _ _ _ _ _ _ _ _ _ _ _ _ Hc Hnd)
      as (m' & Hrun & Hc' & Hrel).
    assert (Ha : addrs (rotate_right_left
                          (T a l k h (T b (T c cl kc hc cr) kb hb rr)))
                 = addrs (T a l k h (T b (T c cl kc hc cr) kb hb rr))).
    { cbn. repeat (rewrite <- app_assoc; cbn). reflexivity. }
    exists m'. split; [exact Hrun|]. split; [|split; [|split; [exact Ha|exact Hrel]]].
    + split; [reflexivity|]. split; [exact Hc'|]. now rewrite Ha.
    + cbn. repeat (rewrite <- app_assoc; cbn). reflexivity.
Qed.

Lemma double_rotations_relink_witness :
  (exists m',
     leftrightrotation (Some 0%nat) heap_312 = Ret (Some 2%nat) m'
     /\ tree_at m' (Some 2%nat) (T 2 (T 1 E 1 2 E) 2 1 (T 0 E 3 3 E))
     /\ relinked heap_312 m')
  /\ (exists m',
        rightleftrotation (Some 0%nat) heap_132 = Ret (Some 2%nat) m'
        /\ tree_at m' (Some 2%nat) (T 2 (T 0 E 1 1 E) 2 1 (T 1 E 3 2 E))
        /\ relinked heap_132 m').
Proof.
  split.
  - destruct (double_rotations_relink heap_312 (Some 0%nat) tree_312) as [HL _];
      [tree_at_here|].
    destruct (HL ltac:(discriminate)) as (m' & H1 & H2 & _ & _ & H3).
    exists m'. auto.
  - destruct (double_rotations_relink heap_132 (Some 0%nat) tree_132) as [_ HR];
      [tree_at_here|].
    destruct (HR ltac:(discriminate)) as (m' & H1 & H2 & _ & _ & H3).
    exists m'. auto.
Defined.

(** ** Which garbage the program can see *)

Lemma bind_ext {A B} (c1 c2 : M A) (k1 k2 : A -> M B) (m : heap) :
  c1 m = c2 m -> (forall v m', k1 v m' = k2 v m') ->
  bind c1 k1 m = bind c2 k2 m.
Proof.
  intros Hc Hk. rewrite !bind_run, Hc. destruct (c2 m); auto.
Qed.

Lemma insert_ext (u1 u2 : addr -> node) :
  (forall a, height (u1 a) = height (u2 a)) ->
  forall (fuel : nat) (root : ptr) (d : Z) (m : heap),
    insert u1 fuel root d m = insert u2 fuel root d m.
Proof.
  intros Hh. induction fuel as [|fuel IH]; intros root d m; [reflexivity|].
  cbn [insert]. destruct root as [a|].
  - apply bind_ext; [reflexivity|]. intros n m'.
    destruct (d <? data n); (apply bind_ext; [apply IH|reflexivity]).
  - now rewrite !createnode_runs, Hh.
Qed.

Lemma main_loop_ext (u1 u2 : addr -> node) :
  (forall a, height (u1 a) = height (u2 a)) ->
  forall (fuel : nat) (rest : list Z) (root : ptr) (m : heap),
    main_loop u1 fuel root rest m = main_loop u2 fuel root rest m.
Proof.
  intros Hh fuel. induction rest as [|d rest IH]; intros root m; [reflexivity|].
  cbn [main_loop]. apply bind_ext; [now apply insert_ext|].
  intros root1 m1. apply bind_ext; [reflexivity|]. intros root2 m2. apply IH.
Qed.

(** X20: of what [malloc] leaves in a fresh block the program can see
    the height word only: two runs of [insert], or of [main], in memories
    whose fresh blocks agree on that word have the same outcome, whatever
    the other words held. *)
Theorem only_height_garbage_matters (u1 u2 : addr -> node) :
  (forall a, height (u1 a) = height (u2 a)) ->
  (forall (fuel : nat) (root : ptr) (d : Z) (m : heap),
     insert u1 fuel root d m = insert u2 fuel root d m)
  /\ (forall (fuel : nat) (d0 : Z) (rest : list Z) (m : heap),
        main_on u1 fuel d0 rest m = main_on u2 fuel d0 rest m).
Proof.
  intros Hh. split; [now apply insert_ext|].
  intros fuel d0 rest m. unfold main_on.
  apply bind_ext; [now rewrite !createnode_runs, Hh|].
  intros root m1. apply bind_ext; [now apply main_loop_ext|reflexivity].
Qed.

Lemma only_height_garbage_matters_witness :
  main_on zero_fill 4 2 [1; 3] []
  = main_on (fun _ => mknode 9 (Some 5%nat) (Some 6%nat) 0) 4 2 [1; 3] [].
Proof.
  apply (only_height_garbage_matters zero_fill
           (fun _ => mknode 9 (Some 5%nat) (Some 6%nat) 0)).
  reflexivity.
Defined.
